(** * The Tailscale Test Agent (cmd/tta/tta.go): reverse-dial listener,
    reconnection supervisor, firewall handler and log buffer.

    The agent dials out to the test driver and hands every dialled connection
    to an [http.Server] through a channel that poses as a listener.  This file
    embeds the parts of [tta.go] that decide how the agent reconnects:

    - Go's buffered channels, as far as [tta.go] uses them (blocking send,
      [select]/[default] send, two-valued receive);
    - the [hs.ConnState] callback and the set [newSet] it maintains;
    - the supervisor loop at the end of [main], one event per statement that
      can block or that talks to the outside;
    - [chanListener.Accept], [addFirewallHandler] and [logBuffer.Write]. *)

From Stdlib Require Import ZArith List Lia Bool.
From stdpp Require Import base gmap sets list strings.

Local Open Scope Z_scope.
Local Open Scope nat_scope.

(** ** Go values *)

(** A [net.Conn] is an interface value compared by identity; only that
    identity matters to [newSet] and to the channels. *)
Abbreviation Conn := nat (only parsing).

(** A Go [error]: [nil], or a value whose [Error()] text is the string. *)
Abbreviation error := (option string) (only parsing).

(** [http.ConnState], in the order net/http declares the constants. *)
Inductive http_ConnState : Set :=
| StateNew
| StateActive
| StateIdle
| StateHijacked
| StateClosed.

#[global] Instance http_ConnState_eq_dec : EqDecision http_ConnState.
Proof. solve_decision. Defined.

(** ** Buffered channels *)

Module Chan.

(** [make(chan A, cap)]: the queued values, oldest first, the capacity and
    whether [close] was called.  Both channels of [tta.go] are buffered
    (capacity one); the hand-over of an unbuffered channel is not
    modelled. *)
Record t (A : Type) : Type := Mk {
  buf : list A;
  cap : nat;
  closed : bool
}.
Arguments Mk {A} _ _ _.
Arguments buf {A} _.
Arguments cap {A} _.
Arguments closed {A} _.

Definition make {A : Type} (n : nat) : t A := Mk [] n false.

Definition full {A : Type} (ch : t A) : bool := cap ch <=? length (buf ch).

(** How a send ends. *)
Inductive sent (A : Type) : Type :=
| Done (ch : t A)   (* the value is queued *)
| Blocked           (* the buffer is full: the sender waits *)
| Panic.            (* "send on closed channel" *)
Arguments Done {A} _.
Arguments Blocked {A}.
Arguments Panic {A}.

(** [ch <- v]. *)
Definition send {A : Type} (ch : t A) (v : A) : sent A :=
  if closed ch then Panic
  else if full ch then Blocked
  else Done (Mk (buf ch ++ [v]) (cap ch) (closed ch)).

(** [ch <- v] as a statement of a goroutine: the channel once the
    statement has completed, [None] while it has not (or never will). *)
Definition send_blocking {A : Type} (ch : t A) (v : A) : option (t A) :=
  match send ch v with
  | Done ch' => Some ch'
  | Blocked | Panic => None
  end.

(** [select { case ch <- v: default: }]: never blocks; the [default]
    branch leaves the channel as it is.  [None]: the send panics. *)
Definition try_send {A : Type} (ch : t A) (v : A) : option (t A) :=
  match send ch v with
  | Done ch' => Some ch'
  | Blocked => Some ch
  | Panic => None
  end.

(** [v, ok := <-ch].  A queued value is delivered with [ok = true], also
    after [close]; a closed and drained channel yields [ok = false] (and
    the zero value, left out here); an open, empty channel blocks:
    [None]. *)
Definition recv {A : Type} (ch : t A) : option (option A * t A) :=
  match buf ch with
  | v :: rest => Some (Some v, Mk rest (cap ch) (closed ch))
  | [] => if closed ch then Some (None, ch) else None
  end.

Definition close {A : Type} (ch : t A) : t A := Mk (buf ch) (cap ch) true.

End Chan.

(** ** The state shared by the goroutines of [main] *)

(** Where the supervisor loop (lines 196-211) stands. *)
Inductive SupPc : Set :=
| PcInject            (* line 197: needConnCh <- true *)
| PcRecv              (* line 199: <-needConnCh *)
| PcConnect           (* line 200: connect() *)
| PcSleep             (* line 207: time.Sleep(time.Second) *)
| PcSend (c : Conn).  (* line 210: conns <- c *)

#[global] Instance SupPc_eq_dec : EqDecision SupPc.
Proof. solve_decision. Defined.

(** What the supervisor prints: [log.Printf("Connect failure: %v", s)]. *)
Inductive LogLine : Set :=
| LogConnectFailure (s : string).

Record State : Type := MkState {
  newSet : gset Conn;           (* line 139; guarded by stMu *)
  needConnCh : Chan.t bool;     (* line 141 *)
  conns : Chan.t Conn;          (* line 159 *)
  pc : SupPc;
  lastErr : string;             (* line 196 *)
  logged : list LogLine;
  serving : bool                (* hs.Serve (line 184) has not returned *)
}.

(** The state in which [main] reaches line 196. *)
Definition init : State :=
  {| newSet := ∅;
     needConnCh := Chan.make 1;
     conns := Chan.make 1;
     pc := PcInject;
     lastErr := EmptyString;
     logged := [];
     serving := true |}.

(** ** Connection lifecycle tracker: [hs.ConnState] (lines 142-158) *)

(** The [switch]: [newSet.Add(c)] for [StateNew], [newSet.Delete(c)] for
    every other state. *)
Definition track (ns : gset Conn) (c : Conn) (s : http_ConnState) : gset Conn :=
  match s with
  | StateNew => {[c]} ∪ ns
  | _ => ns ∖ {[c]}
  end.

(** The condition of line 152, on [oldLen] and the set after the [switch]. *)
Definition fires (oldLen : nat) (newSet' : gset Conn) : bool :=
  bool_decide (oldLen ≠ 0 ∧ size newSet' = 0).

(** The whole callback runs with [stMu] held and never blocks, so it is one
    atomic step.  [None]: the send of line 154 panics, which takes a closed
    [needConnCh]. *)
Definition hs_ConnState (st : State) (c : Conn) (s : http_ConnState) : option State :=
  let oldLen := size (newSet st) in
  let newSet' := track (newSet st) c s in
  if fires oldLen newSet' then
    ch ← Chan.try_send (needConnCh st) true;
    Some {| newSet := newSet';
            needConnCh := ch;
            conns := conns st;
            pc := pc st;
            lastErr := lastErr st;
            logged := logged st;
            serving := serving st |}
  else
    Some {| newSet := newSet';
            needConnCh := needConnCh st;
            conns := conns st;
            pc := pc st;
            lastErr := lastErr st;
            logged := logged st;
            serving := serving st |}.

(** ** Reverse dialer and supervisor loop (lines 196-220) *)

(** [connect] hands back what [net.Dial] returned: the connection, or the
    error (whose text is all the caller looks at). *)
Definition connect (dialed : Conn + string) : Conn + string :=
  match dialed with
  | inr err => inr err
  | inl c => inl c
  end.

(** Lines 200-210, once [connect] has returned. *)
Definition after_connect (st : State) (dialed : Conn + string) : State :=
  match connect dialed with
  | inr s =>
      {| newSet := newSet st;
         needConnCh := needConnCh st;
         conns := conns st;
         pc := PcSleep;
         lastErr := s;
         logged :=
           if bool_decide (s ≠ lastErr st)
           then logged st ++ [LogConnectFailure s]
           else logged st;
         serving := serving st |}
  | inl c =>
      {| newSet := newSet st;
         needConnCh := needConnCh st;
         conns := conns st;
         pc := PcSend c;
         lastErr := lastErr st;
         logged := logged st;
         serving := serving st |}
  end.

Definition set_pc (st : State) (p : SupPc) : State :=
  {| newSet := newSet st;
     needConnCh := needConnCh st;
     conns := conns st;
     pc := p;
     lastErr := lastErr st;
     logged := logged st;
     serving := serving st |}.

Definition set_needConnCh (st : State) (ch : Chan.t bool) : State :=
  {| newSet := newSet st;
     needConnCh := ch;
     conns := conns st;
     pc := pc st;
     lastErr := lastErr st;
     logged := logged st;
     serving := serving st |}.

Definition set_conns (st : State) (ch : Chan.t Conn) : State :=
  {| newSet := newSet st;
     needConnCh := needConnCh st;
     conns := ch;
     pc := pc st;
     lastErr := lastErr st;
     logged := logged st;
     serving := serving st |}.

Definition set_serving (st : State) (b : bool) : State :=
  {| newSet := newSet st;
     needConnCh := needConnCh st;
     conns := conns st;
     pc := pc st;
     lastErr := lastErr st;
     logged := logged st;
     serving := b |}.

(** ** Reverse-dial listener (lines 222-230) *)

(** [chanListener.Accept]: [None] while the receive blocks; otherwise the
    pair Go returns, [inl c] for [(c, nil)] and [inr "closed"] for
    [(nil, errors.New("closed"))], with the channel as the receive left it. *)
Definition chanListener_Accept (cl : Chan.t Conn) : option ((Conn + string) * Chan.t Conn) :=
  match Chan.recv cl with
  | None => None
  | Some (None, cl') => Some (inr "closed"%string, cl')
  | Some (Some c, cl') => Some (inl c, cl')
  end.

(** [chanListener.Close] (lines 232-234). *)
Definition chanListener_Close (cl : Chan.t Conn) : error * Chan.t Conn := (None, cl).

(** ** Executions *)

(** One event per step of a goroutine that touches the shared state.  The
    data that comes from outside the program is carried by the event: what
    [net.Dial] returned, what [Accept] handed to the server, and the
    arguments net/http passes to the callback. *)
Inductive Event : Type :=
| EvInject                                     (* line 197 completes *)
| EvRecv                                       (* line 199 completes *)
| EvDial (dialed : Conn + string)              (* line 200: connect() runs *)
| EvWake                                       (* line 207-208: sleep over, continue *)
| EvSend                                       (* line 210 completes *)
| EvAccept (r : Conn + string)                 (* hs.Serve: Accept returns r *)
| EvConnState (c : Conn) (s : http_ConnState). (* net/http calls hs.ConnState *)

(** [exec st ev]: the state after [ev], or [None] when [ev] cannot happen in
    [st] (the goroutine is elsewhere, or its channel operation blocks).
    [hs.Serve] calls [Accept] in a loop and returns at the first error that
    is not a temporary [net.Error], which the error of line 227 is not. *)
Definition exec (st : State) (ev : Event) : option State :=
  match ev with
  | EvInject =>
      match pc st with
      | PcInject =>
          ch ← Chan.send_blocking (needConnCh st) true;
          Some (set_pc (set_needConnCh st ch) PcRecv)
      | _ => None
      end
  | EvRecv =>
      match pc st with
      | PcRecv =>
          '(_, ch) ← Chan.recv (needConnCh st);
          Some (set_pc (set_needConnCh st ch) PcConnect)
      | _ => None
      end
  | EvDial dialed =>
      match pc st with
      | PcConnect => Some (after_connect st dialed)
      | _ => None
      end
  | EvWake =>
      match pc st with
      | PcSleep => Some (set_pc st PcRecv)
      | _ => None
      end
  | EvSend =>
      match pc st with
      | PcSend c =>
          ch ← Chan.send_blocking (conns st) c;
          Some (set_pc (set_conns st ch) PcRecv)
      | _ => None
      end
  | EvAccept r =>
      if serving st then
        '(r', ch) ← chanListener_Accept (conns st);
        if decide (r = r')
        then Some (set_serving (set_conns st ch)
                     (match r' with inl _ => true | inr _ => false end))
        else None
      else None
  | EvConnState c s => hs_ConnState st c s
  end.

Fixpoint run (st : State) (tr : list Event) : option State :=
  match tr with
  | [] => Some st
  | ev :: tr' =>
      match exec st ev with
      | Some st' => run st' tr'
      | None => None
      end
  end.

(** How often the supervisor received from [needConnCh], and how often it
    called [connect], in a trace. *)
Definition is_recv (ev : Event) : bool :=
  match ev with EvRecv => true | _ => false end.

Definition is_dial (ev : Event) : bool :=
  match ev with EvDial _ => true | _ => false end.

Definition recv_count (tr : list Event) : nat := length (List.filter is_recv tr).
Definition dial_count (tr : list Event) : nat := length (List.filter is_dial tr).

(** *** What net/http promises about the callback

    [hs] serves only the connections its listener returned, and it reports
    every connection as [StateNew] once, before any other state ("Connections
    begin at this state").  [fresh] lists the connections [Accept] has
    returned and the server has not yet reported. *)
Fixpoint take_fresh (c : Conn) (fresh : list Conn) : option (list Conn) :=
  match fresh with
  | [] => None
  | d :: rest =>
      if decide (c = d) then Some rest
      else rest' ← take_fresh c rest; Some (d :: rest')
  end.

Definition server_step (fresh : list Conn) (ev : Event) : option (list Conn) :=
  match ev with
  | EvAccept (inl c) => Some (c :: fresh)
  | EvConnState c StateNew => take_fresh c fresh
  | _ => Some fresh
  end.

Fixpoint server_run (fresh : list Conn) (tr : list Event) : option (list Conn) :=
  match tr with
  | [] => Some fresh
  | ev :: tr' =>
      match server_step fresh ev with
      | Some fresh' => server_run fresh' tr'
      | None => None
      end
  end.

Definition server_discipline (tr : list Event) : bool :=
  match server_run [] tr with
  | Some _ => true
  | None => false
  end.

(** ** The [/fw] handler (lines 243-256) *)

(** What a handler leaves in its [http.ResponseWriter]: the header map, the
    status code once it is written, and the body sent so far. *)
Record ResponseWriter : Type := MkResponse {
  header : list (string * string);
  status : option Z;
  body : string
}.

Definition newResponse : ResponseWriter :=
  {| header := []; status := None; body := EmptyString |}.

(** [w.Header().Set(k, v)]. *)
Definition Header_Set (w : ResponseWriter) (k v : string) : ResponseWriter :=
  {| header := (k, v) :: List.filter (λ kv, negb (String.eqb (fst kv) k)) (header w);
     status := status w;
     body := body w |}.

(** [w.WriteHeader(code)]: only the first call sets the status. *)
Definition WriteHeader (w : ResponseWriter) (code : Z) : ResponseWriter :=
  match status w with
  | Some _ => w
  | None => {| header := header w; status := Some code; body := body w |}
  end.

(** [w.Write(data)]: writes the header with status 200 when none was written
    yet, then the data. *)
Definition Response_Write (w : ResponseWriter) (data : string) : ResponseWriter :=
  let w' := WriteHeader w 200%Z in
  {| header := header w'; status := status w'; body := body w' +:+ data |}.

(** [io.WriteString(w, s)]. *)
Definition io_WriteString (w : ResponseWriter) (s : string) : ResponseWriter :=
  Response_Write w s.

(** The end of line that [fmt.Fprintln] appends. *)
Definition newline : string := String (Ascii.ascii_of_nat 10) EmptyString.

(** net/http's [http.Error(w, msg, code)]: two header fields, the status,
    and the message printed with [fmt.Fprintln], that is, followed by a
    newline. *)
Definition http_Error (w : ResponseWriter) (msg : string) (code : Z) : ResponseWriter :=
  let w1 := Header_Set w "Content-Type" "text/plain; charset=utf-8" in
  let w2 := Header_Set w1 "X-Content-Type-Options" "nosniff" in
  Response_Write (WriteHeader w2 code) (msg +:+ newline).

(** [addFirewall] is a package variable that only [fw_linux.go] sets:
    [None] is the nil function, and a function is known here by the error it
    returns when called. *)
Definition addFirewallHandler (addFirewall : option (unit → error))
    (w : ResponseWriter) : ResponseWriter :=
  match addFirewall with
  | None => http_Error w "firewall not supported" 500%Z
  | Some f =>
      match f tt with
      | Some err => http_Error w err 500%Z
      | None => io_WriteString w ("OK" +:+ newline)
      end
  end.

(** ** The log buffer (lines 264-277) *)

(** [bytes.Buffer], never read from in [tta.go]: the bytes written so far. *)
Definition bytes_Buffer_Len (b : list Byte.byte) : Z := Z.of_nat (length b).

Definition bytes_Buffer_Write (b p : list Byte.byte) : list Byte.byte * (Z * error) :=
  (b ++ p, (Z.of_nat (length p), None)).

(** [logBuffer]; every method holds [mu] from entry to return. *)
Record logBuffer : Type := MkLogBuffer {
  buf : list Byte.byte
}.

Definition maxSize : Z := Z.shiftl 1 20.

Definition logBuffer_Write (lb : logBuffer) (p : list Byte.byte) : logBuffer * (Z * error) :=
  if (bytes_Buffer_Len (buf lb) >? maxSize)%Z
  then (lb, (Z.of_nat (length p), None))
  else
    let '(b', r) := bytes_Buffer_Write (buf lb) p in
    ({| buf := b' |}, r).

(** The buffer after a sequence of calls of [Write], as [log.Printf] makes
    them one after the other. *)
Definition write_all (lb : logBuffer) (ps : list (list Byte.byte)) : logBuffer :=
  fold_left (λ b p, fst (logBuffer_Write b p)) ps lb.

(** The text of the last line the supervisor logged; the empty string, the
    zero value of [lastErr], while it has logged nothing. *)
Definition last_logged (l : list LogLine) : string :=
  match last l with
  | Some (LogConnectFailure s) => s
  | None => EmptyString
  end.

(** ** Invariants of the executions *)

(** Both channels are as line 141 and line 159 made them: open, of capacity
    one, and never over capacity. *)
Definition wf (st : State) : Prop :=
  Chan.closed (needConnCh st) = false
  ∧ Chan.closed (conns st) = false
  ∧ Chan.cap (needConnCh st) = 1
  ∧ Chan.cap (conns st) = 1
  ∧ length (Chan.buf (needConnCh st)) ≤ 1
  ∧ length (Chan.buf (conns st)) ≤ 1.

(** The need for a connection is a token that moves through the system: it
    is the pending signal, then the supervisor holds it while it owes a
    connection, then it is the connection in [conns], then the connection in
    the server's hands, then the member of [newSet]. *)
Definition pc_tokens (p : SupPc) : nat :=
  match p with
  | PcInject | PcConnect | PcSend _ => 1
  | PcRecv | PcSleep => 0
  end.

Definition tokens (st : State) (fresh : list Conn) : nat :=
  length (Chan.buf (needConnCh st)) + pc_tokens (pc st)
  + length (Chan.buf (conns st)) + length fresh + size (newSet st).

(** One when the supervisor has received from [needConnCh] and has not yet
    called [connect]. *)
Definition dialing (st : State) : nat :=
  if decide (pc st = PcConnect) then 1 else 0.

(** ** Command handlers (lines 43-62 and 174-183) *)

(** [strings.Contains(s, substr)]: [substr] occurs in [s] at some byte
    offset. *)
Fixpoint strings_Contains (s substr : string) : bool :=
  if String.prefix substr s then true
  else match s with
       | EmptyString => false
       | String _ s' => strings_Contains s' substr
       end.

(** [absify]; [gokrazy] is [distro.Get() == distro.Gokrazy]. *)
Definition absify (gokrazy : bool) (cmd : string) : string :=
  if gokrazy && negb (strings_Contains cmd "/")
  then ("/user/" +:+ cmd)%string
  else cmd.

(** [w.Header().Get(k)]: the value set for [k], the empty string when there
    is none. *)
Definition Header_Get (w : ResponseWriter) (k : string) : string :=
  match List.find (λ kv, String.eqb (fst kv) k) (header w) with
  | Some kv => snd kv
  | None => EmptyString
  end.

(** [serveCmd].  [CombinedOutput name args] stands for
    [exec.Command(name, args...).CombinedOutput()]: what the command printed
    and the error it ended with. *)
Definition serveCmd (gokrazy : bool)
    (CombinedOutput : string → list string → string * error)
    (w : ResponseWriter) (cmd : string) (args : list string) : ResponseWriter :=
  let '(out, err) := CombinedOutput (absify gokrazy cmd) args in
  let w1 := Header_Set w "Content-Type" "text/plain; charset=utf-8" in
  let w2 :=
    match err with
    | Some e => WriteHeader (Header_Set w1 "Exec-Err" e) 500%Z
    | None => w1
    end in
  Response_Write w2 out.

(** The [/up] handler (lines 174-176). *)
Definition upHandler (gokrazy : bool)
    (CombinedOutput : string → list string → string * error)
    (w : ResponseWriter) : ResponseWriter :=
  serveCmd gokrazy CombinedOutput w "tailscale"
    ["up"%string; "--login-server=http://control.tailscale"%string].

(** The [/logs] handler (lines 178-183), with [logBuf.mu] held throughout. *)
Definition logsHandler (lb : logBuffer) (w : ResponseWriter) : ResponseWriter :=
  Response_Write (Header_Set w "Content-Type" "text/plain; charset=utf-8")
    (String.string_of_list_byte (buf lb)).

(** ** The name server of the kernel command line (lines 89-98) *)

Definition strings_HasPrefix (s prefix : string) : bool := String.prefix prefix s.

(** [s[n:]] for [n] within [s]. *)
Fixpoint string_drop (n : nat) (s : string) : string :=
  match n, s with
  | 0, _ => s
  | S n', String _ s' => string_drop n' s'
  | S _, EmptyString => EmptyString
  end.

(** [strings.CutPrefix(s, prefix)]. *)
Definition strings_CutPrefix (s prefix : string) : string * bool :=
  if strings_HasPrefix s prefix
  then (string_drop (String.length prefix) s, true)
  else (s, false).

(** The loop over [strings.Fields(string(cmdLine))]: what is written to
    [/tmp/resolv.conf], if anything; [explicitNS] is whether something
    was. *)
Fixpoint explicit_nameserver (fields : list string) : option string :=
  match fields with
  | [] => None
  | s :: rest =>
      let '(ns, ok) := strings_CutPrefix s "tta.nameserver=" in
      if ok then Some ("nameserver " +:+ ns +:+ newline)%string
      else explicit_nameserver rest
  end.

(** ** Counting in traces *)

Definition is_failed_dial (ev : Event) : bool :=
  match ev with EvDial (inr _) => true | _ => false end.

Definition is_ok_dial (ev : Event) : bool :=
  match ev with EvDial (inl _) => true | _ => false end.

Definition is_accept (ev : Event) : bool :=
  match ev with EvAccept (inl _) => true | _ => false end.

Definition failed_count (tr : list Event) : nat := length (List.filter is_failed_dial tr).
Definition ok_dial_count (tr : list Event) : nat := length (List.filter is_ok_dial tr).
Definition accept_count (tr : list Event) : nat := length (List.filter is_accept tr).

(** One while the supervisor holds a connection it has not yet sent. *)
Definition sending (st : State) : nat :=
  match pc st with PcSend _ => 1 | _ => 0 end.

#[global] Instance LogLine_eq_dec : EqDecision LogLine.
Proof. solve_decision. Defined.

(** No log line repeats the line before it. *)
Fixpoint distinct_neighbours (l : list LogLine) : bool :=
  match l with
  | a :: (b :: _) as rest => negb (bool_decide (a = b)) && distinct_neighbours rest
  | _ => true
  end.

(** * Properties *)

(** ** Channels *)

Lemma send_blocking_Some {A : Type} (ch ch' : Chan.t A) (v : A) :
  Chan.send_blocking ch v = Some ch' ↔
  Chan.closed ch = false ∧ length (Chan.buf ch) < Chan.cap ch
  ∧ ch' = Chan.Mk (Chan.buf ch ++ [v]) (Chan.cap ch) false.
Proof.
  unfold Chan.send_blocking, Chan.send, Chan.full.
  destruct ch as [b n cl]; simpl. destruct cl; simpl.
  - split; [discriminate | intros [? _]; discriminate].
  - destruct (Nat.leb_spec n (length b)); split.
    + discriminate.
    + intros (_ & ? & _); lia.
    + intros [= <-]; auto.
    + intros (_ & _ & ->); reflexivity.
Qed.

Lemma try_send_open {A : Type} (ch : Chan.t A) (v : A) :
  Chan.closed ch = false →
  Chan.try_send ch v =
    Some (if Chan.full ch then ch
          else Chan.Mk (Chan.buf ch ++ [v]) (Chan.cap ch) false).
Proof.
  unfold Chan.try_send, Chan.send. destruct ch as [b n cl]; simpl.
  intros ->. destruct (Chan.full _); reflexivity.
Qed.

Lemma recv_Some {A : Type} (ch ch' : Chan.t A) (r : option A) :
  Chan.closed ch = false →
  Chan.recv ch = Some (r, ch') →
  ∃ v, r = Some v ∧ Chan.buf ch = v :: Chan.buf ch'
       ∧ Chan.cap ch' = Chan.cap ch ∧ Chan.closed ch' = false.
Proof.
  unfold Chan.recv. destruct ch as [b n cl]; simpl. intros ->.
  destruct b as [|v rest]; [discriminate|].
  intros H; inversion H; subst. exists v; simpl; auto.
Qed.

(** ** The tracker *)

Lemma track_new (ns : gset Conn) (c : Conn) :
  size (track ns c StateNew) ≠ 0.
Proof.
  simpl. intros Hz. apply size_empty_inv in Hz.
  assert (c ∈ ({[c]} ∪ ns : gset Conn)) as Hin by set_solver.
  rewrite Hz in Hin. set_solver.
Qed.

Lemma fires_new (oldLen : nat) (ns : gset Conn) (c : Conn) :
  fires oldLen (track ns c StateNew) = false.
Proof.
  unfold fires. apply bool_decide_eq_false. intros [_ Hz].
  exact (track_new ns c Hz).
Qed.

Lemma track_other (ns : gset Conn) (c : Conn) (s : http_ConnState) :
  s ≠ StateNew → track ns c s = ns ∖ {[c]}.
Proof. destruct s; [congruence | reflexivity ..]. Qed.

Lemma fires_only_last (ns : gset Conn) (c : Conn) (s : http_ConnState) :
  fires (size ns) (track ns c s) = true → s ≠ StateNew ∧ ns = {[c]}.
Proof.
  unfold fires. intros [Hold Hnew]%bool_decide_eq_true.
  assert (s ≠ StateNew) as Hs.
  { intros ->. exact (track_new ns c Hnew). }
  split; [exact Hs|].
  rewrite (track_other _ _ _ Hs) in Hnew.
  apply size_empty_inv in Hnew.
  apply size_non_empty_iff in Hold.
  apply set_choose in Hold as [d Hd].
  apply leibniz_equiv, set_equiv. intros x. rewrite elem_of_singleton. split.
  - intros Hx. destruct (decide (x = c)) as [|Hne]; [done|].
    assert (x ∈ ns ∖ {[c]}) as Hin by (apply elem_of_difference; set_solver).
    rewrite Hnew in Hin. set_solver.
  - intros ->. destruct (decide (d = c)) as [|Hne]; [by subst|].
    assert (d ∈ ns ∖ {[c]}) as Hin by (apply elem_of_difference; set_solver).
    rewrite Hnew in Hin. set_solver.
Qed.

Lemma size_track_le (ns : gset Conn) (c : Conn) (s : http_ConnState) :
  s ≠ StateNew → size (track ns c s) ≤ size ns.
Proof.
  intros Hs. rewrite (track_other _ _ _ Hs).
  apply subseteq_size. intros x [Hx _]%elem_of_difference. exact Hx.
Qed.

(** ** Steps *)

(** The case analysis of a step: which event, and what it found. *)
Ltac exec_cases st ev H :=
  destruct ev as [| |?d| | |?r|?c ?s]; simpl in H;
  [ destruct (pc st) eqn:?; try discriminate;
    destruct (Chan.send_blocking _ _) eqn:?; simplify_eq/=
  | destruct (pc st) eqn:?; try discriminate;
    destruct (Chan.recv _) as [[]|] eqn:?; simplify_eq/=
  | destruct (pc st) eqn:?; try discriminate; simplify_eq
  | destruct (pc st) eqn:?; try discriminate; simplify_eq/=
  | destruct (pc st) eqn:?; try discriminate;
    destruct (Chan.send_blocking _ _) eqn:?; simplify_eq/=
  | destruct (serving st); try discriminate;
    destruct (chanListener_Accept _) as [[]|] eqn:?; simplify_eq/=;
    case_decide; simplify_eq/=
  | unfold hs_ConnState in H; destruct (fires _ _) eqn:?;
    [ destruct (Chan.try_send _ _) eqn:?; simplify_eq/= | simplify_eq/= ] ].

(** What each event asks of the supervisor's position, and where it leaves
    it. *)
Lemma exec_pc (st st' : State) (ev : Event) :
  exec st ev = Some st' →
  match ev with
  | EvInject => pc st = PcInject ∧ pc st' = PcRecv
  | EvRecv => pc st = PcRecv ∧ pc st' = PcConnect
  | EvDial (inl c) => pc st = PcConnect ∧ pc st' = PcSend c
  | EvDial (inr _) => pc st = PcConnect ∧ pc st' = PcSleep
  | EvWake => pc st = PcSleep ∧ pc st' = PcRecv
  | EvSend => (∃ c, pc st = PcSend c) ∧ pc st' = PcRecv
  | EvAccept _ | EvConnState _ _ => pc st' = pc st
  end.
Proof.
  intros H. exec_cases st ev H; eauto.
  destruct d; auto.
Qed.

Lemma take_fresh_length (c : Conn) (fresh fresh' : list Conn) :
  take_fresh c fresh = Some fresh' → length fresh = S (length fresh').
Proof.
  revert fresh'. induction fresh as [|d rest IH]; simpl; intros fresh' H.
  - discriminate.
  - case_decide.
    + by simplify_eq.
    + destruct (take_fresh c rest) as [rest'|]; simplify_eq/=.
      by rewrite (IH rest').
Qed.

Lemma size_track_new (ns : gset Conn) (c : Conn) :
  size (track ns c StateNew) ≤ S (size ns).
Proof.
  simpl. rewrite size_union_alt, size_singleton.
  pose proof (subseteq_size (ns ∖ {[c]}) ns) as Hle.
  assert (ns ∖ {[c]} ⊆ ns) as Hsub
    by (intros x [Hx _]%elem_of_difference; exact Hx).
  specialize (Hle Hsub). lia.
Qed.

(** Every step keeps the channels well formed, and no step creates a
    token. *)
Lemma exec_tokens (st st' : State) (ev : Event) (fresh fresh' : list Conn) :
  wf st →
  exec st ev = Some st' →
  server_step fresh ev = Some fresh' →
  wf st' ∧ tokens st' fresh' ≤ tokens st fresh.
Proof.
  intros (Hc1 & Hc2 & Hk1 & Hk2 & Hl1 & Hl2) H Hs.
  unfold wf, tokens.
  destruct ev as [| |d| | |r|c s]; simpl in H.
  - destruct (pc st) eqn:Hpc; try discriminate.
    destruct (Chan.send_blocking _ _) as [ch|] eqn:E; simplify_eq/=.
    apply send_blocking_Some in E as (_ & Hlt & ->); simpl.
    rewrite length_app; simpl. repeat split; auto; lia.
  - destruct (pc st) eqn:Hpc; try discriminate.
    destruct (Chan.recv _) as [[r ch]|] eqn:E; simplify_eq/=.
    apply recv_Some in E as (v & -> & Hb & Hk & Hcl); [|done].
    rewrite Hb in Hl1 |- *; simpl in *.
    repeat split; auto; lia.
  - destruct (pc st) eqn:Hpc; try discriminate. simplify_eq/=.
    unfold after_connect. destruct d as [c|e]; simpl;
      repeat split; auto; lia.
  - destruct (pc st) eqn:Hpc; try discriminate. simplify_eq/=.
    repeat split; auto.
  - destruct (pc st) eqn:Hpc; try discriminate.
    destruct (Chan.send_blocking _ _) as [ch|] eqn:E; simplify_eq/=.
    apply send_blocking_Some in E as (_ & Hlt & ->); simpl.
    rewrite length_app; simpl. repeat split; auto; lia.
  - destruct (serving st); try discriminate.
    unfold chanListener_Accept in H.
    destruct (Chan.recv _) as [[r' ch]|] eqn:E; [|discriminate].
    apply recv_Some in E as (v & -> & Hb & Hk & Hcl); [|done].
    simpl in H. case_decide; simplify_eq/=.
    rewrite Hb in Hl2 |- *; simpl in *.
    repeat split; auto; lia.
  - unfold hs_ConnState in H.
    destruct (fires _ _) eqn:Hf.
    + apply fires_only_last in Hf as [Hne Hset].
      rewrite try_send_open in H by done. simplify_eq/=.
      assert (fresh' = fresh) as -> by (destruct s; simplify_eq/=; done).
      rewrite (track_other _ _ _ Hne), Hset.
      rewrite difference_diag_L, size_empty, size_singleton.
      unfold Chan.full. rewrite Hk1.
      destruct (Nat.leb_spec 1 (length (Chan.buf (needConnCh st)))); simpl.
      * repeat split; auto. lia.
      * rewrite length_app; simpl. repeat split; auto; lia.
    + simplify_eq/=. destruct (decide (s = StateNew)) as [->|Hne].
      * simpl in Hs. apply take_fresh_length in Hs.
        pose proof (size_track_new (newSet st) c). simpl in *.
        repeat split; auto. lia.
      * assert (fresh' = fresh) as -> by (destruct s; simplify_eq/=; done).
        pose proof (size_track_le (newSet st) c s Hne).
        repeat split; auto. lia.
Qed.

Lemma wf_init : wf init.
Proof. unfold wf; simpl. repeat split; auto. Qed.

Lemma wf_exec (st st' : State) (ev : Event) :
  wf st → exec st ev = Some st' → wf st'.
Proof.
  intros Hwf H.
  assert (∃ fresh fresh', server_step fresh ev = Some fresh') as (f & f' & Hf).
  { destruct ev as [| |d| | |[c|e]|c s]; try (by exists [], []; eauto).
    - by exists [], [c].
    - destruct s; try (by exists [], []).
      exists [c], []. simpl. by rewrite decide_True. }
  exact (proj1 (exec_tokens st st' ev f f' Hwf H Hf)).
Qed.

Lemma tokens_init : tokens init [] = 1.
Proof. reflexivity. Qed.

(** ** Executions *)

Lemma run_app (st : State) (tr1 tr2 : list Event) :
  run st (tr1 ++ tr2) = run st tr1 ≫= λ st1, run st1 tr2.
Proof.
  revert st. induction tr1 as [|ev tr1 IH]; intros st; simpl; [done|].
  destruct (exec st ev); simpl; [apply IH | done].
Qed.

Lemma server_run_app (fresh : list Conn) (tr1 tr2 : list Event) :
  server_run fresh (tr1 ++ tr2) = server_run fresh tr1 ≫= λ f1, server_run f1 tr2.
Proof.
  revert fresh. induction tr1 as [|ev tr1 IH]; intros fresh; simpl; [done|].
  destruct (server_step fresh ev); simpl; [apply IH | done].
Qed.

Lemma run_wf (tr : list Event) (st st' : State) :
  wf st → run st tr = Some st' → wf st'.
Proof.
  revert st. induction tr as [|ev tr IH]; intros st Hwf H; simpl in H.
  - by simplify_eq.
  - destruct (exec st ev) as [st1|] eqn:E; [|discriminate].
    eapply IH; [|exact H]. eapply wf_exec; eauto.
Qed.

Lemma run_tokens (tr : list Event) (st st' : State) (fresh fresh' : list Conn) :
  wf st →
  run st tr = Some st' →
  server_run fresh tr = Some fresh' →
  wf st' ∧ tokens st' fresh' ≤ tokens st fresh.
Proof.
  revert st fresh. induction tr as [|ev tr IH]; intros st fresh Hwf H Hs;
    simpl in H, Hs.
  - simplify_eq. auto.
  - destruct (exec st ev) as [st1|] eqn:E; [|discriminate].
    destruct (server_step fresh ev) as [f1|] eqn:Ef; [|discriminate].
    destruct (exec_tokens _ _ _ _ _ Hwf E Ef) as [Hwf1 Hle].
    destruct (IH _ _ Hwf1 H Hs) as [Hwf' Hle']. split; [done | lia].
Qed.

(** The supervisor calls [connect] once for each receive from
    [needConnCh], and only after it. *)
Lemma run_dial_recv (tr : list Event) (st st' : State) :
  run st tr = Some st' →
  recv_count tr + dialing st = dial_count tr + dialing st'.
Proof.
  unfold recv_count, dial_count, dialing.
  revert st. induction tr as [|ev tr IH]; intros st H; simpl in H.
  - by simplify_eq.
  - destruct (exec st ev) as [st1|] eqn:E; [|discriminate].
    specialize (IH _ H). apply exec_pc in E.
    destruct ev as [| |[c|e]| | |r|c s]; simpl;
      repeat match goal with
             | H : _ ∧ _ |- _ => destruct H
             | H : ∃ _, _ |- _ => destruct H
             end;
      repeat case_decide; simpl in *; try congruence; lia.
Qed.

(** Once no token is left, the supervisor never dials again. *)
Lemma no_token_no_dial (tr : list Event) (st st' : State) (fresh fresh' : list Conn) :
  wf st →
  tokens st fresh = 0 →
  run st tr = Some st' →
  server_run fresh tr = Some fresh' →
  dial_count tr = 0 ∧ tokens st' fresh' = 0.
Proof.
  unfold dial_count.
  revert st fresh. induction tr as [|ev tr IH]; intros st fresh Hwf Hz H Hs;
    simpl in H, Hs.
  - by simplify_eq.
  - destruct (exec st ev) as [st1|] eqn:E; [|discriminate].
    destruct (server_step fresh ev) as [f1|] eqn:Ef; [|discriminate].
    destruct (exec_tokens _ _ _ _ _ Hwf E Ef) as [Hwf1 Hle].
    assert (tokens st1 f1 = 0) as Hz1 by lia.
    destruct (IH _ _ Hwf1 Hz1 H Hs) as [Hd Hz']. split; [|done].
    destruct ev as [| |d| | |r|c s]; simpl; try exact Hd.
    apply exec_pc in E.
    assert (pc st = PcConnect) as Hpc by (destruct d; tauto).
    unfold tokens in Hz. rewrite Hpc in Hz. simpl in Hz. lia.
Qed.

(** * The claims *)

(** ** Reconnection supervisor *)

(** C1 (the code departs from the claim).  The claim: after a failed dial
    the supervisor dials again once the one-second sleep is over, with no
    new need-connection signal.  The code: [continue] (line 208) leads back
    to the receive of line 199, and the signal that started the failed
    attempt is spent.  In every execution in which the server reports only
    connections it accepted, nothing follows a failed [connect]: the
    supervisor never calls [connect] again, however the run goes on; it is
    asleep or blocked on the empty [needConnCh]. *)
Theorem dial_failure_ends_dialing (tr1 tr2 : list Event) (e : string) (st : State) :
  run init (tr1 ++ EvDial (inr e) :: tr2) = Some st →
  server_discipline (tr1 ++ EvDial (inr e) :: tr2) = true →
  dial_count tr2 = 0
  ∧ Chan.buf (needConnCh st) = []
  ∧ (pc st = PcSleep ∨ pc st = PcRecv).
Proof.
  intros Hrun Hdisc.
  rewrite run_app in Hrun.
  destruct (run init tr1) as [st1|] eqn:Hrun1; [|discriminate].
  simpl in Hrun.
  destruct (pc st1) eqn:Hpc; try discriminate.
  unfold server_discipline in Hdisc.
  destruct (server_run [] _) as [f|] eqn:Hsrv; [|discriminate].
  rewrite server_run_app in Hsrv.
  destruct (server_run [] tr1) as [f1|] eqn:Hsrv1; [|discriminate].
  simpl in Hsrv.
  destruct (run_tokens _ _ _ _ _ wf_init Hrun1 Hsrv1) as [Hwf1 Hle].
  assert (tokens (after_connect st1 (inr e)) f1 = 0) as Hz.
  { rewrite tokens_init in Hle. revert Hle.
    unfold tokens, after_connect; simpl. rewrite Hpc; simpl. lia. }
  assert (wf (after_connect st1 (inr e))) as Hwf2 by exact Hwf1.
  destruct (no_token_no_dial _ _ _ _ _ Hwf2 Hz Hrun Hsrv) as [Hd Hz'].
  split; [exact Hd|].
  unfold tokens in Hz'.
  split.
  - destruct (Chan.buf (needConnCh st)); [done | simpl in Hz'; lia].
  - destruct (pc st); simpl in Hz'; auto; lia.
Qed.

(** The driver is not listening yet: the first dial is refused. *)
Lemma dial_failure_ends_dialing_witness :
  ∃ st,
    run init ([EvInject; EvRecv] ++ EvDial (inr "connection refused"%string) :: [EvWake])
      = Some st
    ∧ server_discipline
        ([EvInject; EvRecv] ++ EvDial (inr "connection refused"%string) :: [EvWake])
      = true
    ∧ dial_count [EvWake] = 0
    ∧ Chan.buf (needConnCh st) = []
    ∧ (pc st = PcSleep ∨ pc st = PcRecv).
Proof.
  eexists. split; [vm_compute; reflexivity|].
  split; [vm_compute; reflexivity|].
  apply (dial_failure_ends_dialing [EvInject; EvRecv] [EvWake] "connection refused");
    vm_compute; reflexivity.
Defined.

(** Only a failed [connect] touches [lastErr] and the log. *)
Lemma exec_logged (st st' : State) (ev : Event) :
  exec st ev = Some st' →
  (∃ e, ev = EvDial (inr e) ∧ st' = after_connect st (inr e))
  ∨ (lastErr st' = lastErr st ∧ logged st' = logged st).
Proof.
  intros H. exec_cases st ev H; auto.
  destruct d as [c|e]; [right; auto | left; eauto].
Qed.

Lemma last_logged_snoc (l : list LogLine) (e : string) :
  last_logged (l ++ [LogConnectFailure e]) = e.
Proof. unfold last_logged. by rewrite last_snoc. Qed.

Lemma after_connect_lastErr (st : State) (e : string) :
  lastErr st = last_logged (logged st) →
  lastErr (after_connect st (inr e))
  = last_logged (logged (after_connect st (inr e))).
Proof.
  intros Hinv. unfold after_connect; simpl. case_bool_decide as Hne.
  - by rewrite last_logged_snoc.
  - by rewrite Hne.
Qed.

Lemma run_lastErr (tr : list Event) (st st' : State) :
  lastErr st = last_logged (logged st) →
  run st tr = Some st' →
  lastErr st' = last_logged (logged st').
Proof.
  revert st. induction tr as [|ev tr IH]; intros st Hinv H; simpl in H.
  - by simplify_eq.
  - destruct (exec st ev) as [st1|] eqn:E; [|discriminate].
    apply (IH st1); [|exact H].
    destruct (exec_logged _ _ _ E) as [(e & -> & ->) | [Hl Hg]].
    + by apply after_connect_lastErr.
    + by rewrite Hl, Hg.
Qed.

(** C6.  In every execution the supervisor's [lastErr] is the text of the
    failure it logged last (the empty string, [lastErr]'s initial value,
    while it has logged none), and a failed [connect] with error text [e]
    adds a log line exactly when [e] differs from that text: identical
    consecutive failures are logged once, a changed text is always logged.
    Successful dials in between change neither. *)
Theorem connect_failure_logged_on_change (tr : list Event) (st : State) (e : string) :
  run init tr = Some st →
  lastErr st = last_logged (logged st)
  ∧ (pc st = PcConnect →
       exec st (EvDial (inr e)) = Some (after_connect st (inr e)))
  ∧ logged (after_connect st (inr e))
    = (if decide (e = last_logged (logged st))
       then logged st
       else logged st ++ [LogConnectFailure e])
  ∧ last_logged (logged (after_connect st (inr e))) = e
  ∧ lastErr (after_connect st (inr e)) = e.
Proof.
  intros Hrun.
  assert (lastErr st = last_logged (logged st)) as Hinv.
  { eapply run_lastErr; [|exact Hrun]. reflexivity. }
  split; [exact Hinv|]. split.
  { intros Hpc. simpl. by rewrite Hpc. }
  assert (logged (after_connect st (inr e))
          = (if decide (e = last_logged (logged st))
             then logged st
             else logged st ++ [LogConnectFailure e])) as Hlog.
  { unfold after_connect; simpl. rewrite <- Hinv.
    case_bool_decide; case_decide; done. }
  split; [exact Hlog|]. split; [|reflexivity].
  rewrite Hlog. case_decide as Heq.
  - by rewrite Heq.
  - apply last_logged_snoc.
Qed.

(** A refused dial, a connection that comes and goes, and the supervisor
    about to dial again: the same text would not be logged twice. *)
Lemma connect_failure_logged_on_change_witness :
  ∃ st,
    run init [EvInject; EvRecv; EvDial (inr "refused"%string); EvWake;
              EvConnState 1 StateNew; EvConnState 1 StateClosed; EvRecv] = Some st
    ∧ logged st = [LogConnectFailure "refused"]
    ∧ lastErr st = last_logged (logged st)
    ∧ (pc st = PcConnect →
         exec st (EvDial (inr "refused"%string))
         = Some (after_connect st (inr "refused"%string)))
    ∧ logged (after_connect st (inr "refused"%string))
      = (if decide ("refused"%string = last_logged (logged st))
         then logged st
         else logged st ++ [LogConnectFailure "refused"])
    ∧ last_logged (logged (after_connect st (inr "refused"%string))) = "refused"%string
    ∧ lastErr (after_connect st (inr "refused"%string)) = "refused"%string.
Proof.
  eexists. split; [vm_compute; reflexivity|].
  split; [vm_compute; reflexivity|].
  apply (connect_failure_logged_on_change
           [EvInject; EvRecv; EvDial (inr "refused"%string); EvWake;
            EvConnState 1 StateNew; EvConnState 1 StateClosed; EvRecv]).
  vm_compute; reflexivity.
Defined.

(** ** Need-connection signal and intake channel *)

(** C4.  In every execution, whatever the callback is called with:
    [needConnCh] never holds more than one signal; a callback that runs
    while one is pending leaves the channel as it is (the duplicate is
    dropped, not queued); the supervisor's receive leaves the channel
    empty, so all the emptiness transitions before it count for one; and
    the supervisor calls [connect] at most once per receive. *)
Theorem needConn_signal_single_slot (tr : list Event) (st : State) :
  run init tr = Some st →
  length (Chan.buf (needConnCh st)) ≤ 1
  ∧ (∀ c s, length (Chan.buf (needConnCh st)) = 1 →
       ∃ st', hs_ConnState st c s = Some st' ∧ needConnCh st' = needConnCh st)
  ∧ (∀ st', exec st EvRecv = Some st' → Chan.buf (needConnCh st') = [])
  ∧ dial_count tr ≤ recv_count tr ≤ dial_count tr + 1.
Proof.
  intros Hrun.
  pose proof (run_wf _ _ _ wf_init Hrun) as (Hc1 & Hc2 & Hk1 & Hk2 & Hl1 & Hl2).
  split; [exact Hl1|]. split; [|split].
  - intros c s Hfull. unfold hs_ConnState.
    destruct (fires _ _).
    + rewrite try_send_open by done. simpl.
      unfold Chan.full. rewrite Hk1, Hfull. simpl. eauto.
    + eauto.
  - intros st' H. simpl in H.
    destruct (pc st); try discriminate.
    destruct (Chan.recv _) as [[r ch]|] eqn:E; simplify_eq/=.
    apply recv_Some in E as (v & _ & Hb & _ & _); [|done].
    rewrite Hb in Hl1. simpl in Hl1.
    destruct (Chan.buf ch); [done | simpl in Hl1; lia].
  - pose proof (run_dial_recv _ _ _ Hrun) as Hcount.
    change (dialing init) with 0 in Hcount.
    unfold dialing in Hcount. case_decide; lia.
Qed.

(** Two connections leave [newSet] before the supervisor receives again:
    one signal is pending. *)
Lemma needConn_signal_single_slot_witness :
  ∃ st,
    run init [EvInject; EvRecv; EvDial (inl 7); EvSend; EvAccept (inl 7);
              EvConnState 7 StateNew; EvConnState 7 StateActive;
              EvConnState 8 StateNew; EvConnState 8 StateClosed] = Some st
    ∧ Chan.buf (needConnCh st) = [true]
    ∧ length (Chan.buf (needConnCh st)) ≤ 1
    ∧ (∀ c s, length (Chan.buf (needConnCh st)) = 1 →
         ∃ st', hs_ConnState st c s = Some st' ∧ needConnCh st' = needConnCh st)
    ∧ (∀ st', exec st EvRecv = Some st' → Chan.buf (needConnCh st') = [])
    ∧ dial_count [EvInject; EvRecv; EvDial (inl 7); EvSend; EvAccept (inl 7);
                  EvConnState 7 StateNew; EvConnState 7 StateActive;
                  EvConnState 8 StateNew; EvConnState 8 StateClosed]
      ≤ recv_count [EvInject; EvRecv; EvDial (inl 7); EvSend; EvAccept (inl 7);
                    EvConnState 7 StateNew; EvConnState 7 StateActive;
                    EvConnState 8 StateNew; EvConnState 8 StateClosed]
      ≤ dial_count [EvInject; EvRecv; EvDial (inl 7); EvSend; EvAccept (inl 7);
                    EvConnState 7 StateNew; EvConnState 7 StateActive;
                    EvConnState 8 StateNew; EvConnState 8 StateClosed] + 1.
Proof.
  eexists. split; [vm_compute; reflexivity|].
  split; [vm_compute; reflexivity|].
  apply needConn_signal_single_slot.
  vm_compute; reflexivity.
Defined.

(** C5.  In every execution [conns] holds at most one connection, and the
    supervisor's send completes only into an empty [conns]: while a
    connection sits there unconsumed the send stays blocked.  When the
    server reports only the connections it accepted (each as [StateNew]
    once), the supervisor is never about to dial while a connection it
    delivered is still in [conns], or accepted and still new. *)
Theorem intake_one_in_flight (tr : list Event) (st : State) :
  run init tr = Some st →
  length (Chan.buf (conns st)) ≤ 1
  ∧ (∀ c, pc st = PcSend c →
       exec st EvSend
       = (if decide (Chan.buf (conns st) = [])
          then Some (set_pc (set_conns st (Chan.Mk [c] 1 false)) PcRecv)
          else None))
  ∧ (server_discipline tr = true → pc st = PcConnect →
       Chan.buf (conns st) = [] ∧ newSet st = ∅).
Proof.
  intros Hrun.
  pose proof (run_wf _ _ _ wf_init Hrun) as (Hc1 & Hc2 & Hk1 & Hk2 & Hl1 & Hl2).
  split; [exact Hl2|]. split.
  - intros c Hpc. simpl. rewrite Hpc.
    unfold Chan.send_blocking, Chan.send, Chan.full.
    rewrite Hc2, Hk2.
    destruct (Chan.buf (conns st)) as [|d rest]; simpl; reflexivity.
  - unfold server_discipline.
    destruct (server_run [] tr) as [f|] eqn:Hsrv; [|discriminate].
    intros _ Hpc.
    destruct (run_tokens _ _ _ _ _ wf_init Hrun Hsrv) as [_ Hle].
    rewrite tokens_init in Hle. unfold tokens in Hle.
    rewrite Hpc in Hle. simpl in Hle. split.
    + destruct (Chan.buf (conns st)); [done | simpl in Hle; lia].
    + apply leibniz_equiv, size_empty_inv. lia.
Qed.

(** A connection is dialled, delivered, accepted and becomes active; the
    supervisor is about to dial the next one. *)
Lemma intake_one_in_flight_witness :
  ∃ st,
    run init [EvInject; EvRecv; EvDial (inl 7); EvSend; EvAccept (inl 7);
              EvConnState 7 StateNew; EvConnState 7 StateActive; EvRecv] = Some st
    ∧ server_discipline
        [EvInject; EvRecv; EvDial (inl 7); EvSend; EvAccept (inl 7);
         EvConnState 7 StateNew; EvConnState 7 StateActive; EvRecv] = true
    ∧ pc st = PcConnect
    ∧ length (Chan.buf (conns st)) ≤ 1
    ∧ (∀ c, pc st = PcSend c →
         exec st EvSend
         = (if decide (Chan.buf (conns st) = [])
            then Some (set_pc (set_conns st (Chan.Mk [c] 1 false)) PcRecv)
            else None))
    ∧ (server_discipline
         [EvInject; EvRecv; EvDial (inl 7); EvSend; EvAccept (inl 7);
          EvConnState 7 StateNew; EvConnState 7 StateActive; EvRecv] = true →
       pc st = PcConnect →
       Chan.buf (conns st) = [] ∧ newSet st = ∅).
Proof.
  eexists. split; [vm_compute; reflexivity|].
  split; [vm_compute; reflexivity|].
  split; [vm_compute; reflexivity|].
  apply intake_one_in_flight.
  vm_compute; reflexivity.
Defined.

(** ** Connection lifecycle tracker *)

(** C3.  The callback, on a [needConnCh] as line 141 made it (open, of
    capacity one): [StateNew] adds [c] to [newSet], every other state
    removes it; the signal is sent exactly when [newSet] was not empty
    before the call and is empty after it; and the send does not block: with
    a signal already pending the channel stays as it is.  Nothing else
    changes. *)
Theorem hs_ConnState_observe (st : State) (c : Conn) (s : http_ConnState) :
  Chan.closed (needConnCh st) = false →
  Chan.cap (needConnCh st) = 1 →
  ∃ st',
    hs_ConnState st c s = Some st'
    ∧ newSet st'
      = (if decide (s = StateNew) then {[c]} ∪ newSet st else newSet st ∖ {[c]})
    ∧ needConnCh st'
      = (if decide (size (newSet st) ≠ 0 ∧ size (newSet st') = 0)
         then if decide (Chan.buf (needConnCh st) = [])
              then Chan.Mk [true] 1 false
              else needConnCh st
         else needConnCh st)
    ∧ conns st' = conns st ∧ pc st' = pc st ∧ lastErr st' = lastErr st
    ∧ logged st' = logged st ∧ serving st' = serving st.
Proof.
  intros Hopen Hcap. unfold hs_ConnState, fires.
  assert (track (newSet st) c s
          = (if decide (s = StateNew) then {[c]} ∪ newSet st
             else newSet st ∖ {[c]})) as Htrack.
  { case_decide as Hs; [by subst | by apply track_other]. }
  case_bool_decide as Hf.
  - rewrite try_send_open by done. eexists. split; [reflexivity|]. simpl.
    split; [exact Htrack|]. split; [|done].
    rewrite decide_True by done.
    unfold Chan.full. rewrite Hcap.
    destruct (needConnCh st) as [b n cl]; simpl in *. subst.
    destruct b; simpl; reflexivity.
  - eexists. split; [reflexivity|]. simpl.
    split; [exact Htrack|]. split; [|done].
    by rewrite decide_False.
Qed.

(** The only new connection becomes active: the set empties and the
    signal is sent. *)
Lemma hs_ConnState_observe_witness :
  ∃ st',
    hs_ConnState
      {| newSet := {[7]}; needConnCh := Chan.make 1; conns := Chan.make 1;
         pc := PcRecv; lastErr := EmptyString; logged := []; serving := true |}
      7 StateActive = Some st'
    ∧ newSet st' = ∅
    ∧ needConnCh st' = Chan.Mk [true] 1 false.
Proof.
  destruct (hs_ConnState_observe
              {| newSet := {[7]}; needConnCh := Chan.make 1; conns := Chan.make 1;
                 pc := PcRecv; lastErr := EmptyString; logged := [];
                 serving := true |}
              7 StateActive eq_refl eq_refl)
    as (st' & Hrun & Hset & Hch & _).
  exists st'. split; [exact Hrun|].
  split; [rewrite Hset; vm_compute; reflexivity|].
  rewrite Hch, Hset. vm_compute. reflexivity.
Defined.

(** C10.  A callback with [StateNew] never sends the signal: it adds [c],
    leaves [needConnCh] and everything else as they were, and the set it
    leaves is not empty.  The condition of line 152 holds only for a state
    other than [StateNew], and then only when [c] was the one member of
    [newSet]. *)
Theorem hs_ConnState_new_never_fires (st : State) (c : Conn) :
  hs_ConnState st c StateNew
  = Some {| newSet := {[c]} ∪ newSet st;
            needConnCh := needConnCh st;
            conns := conns st;
            pc := pc st;
            lastErr := lastErr st;
            logged := logged st;
            serving := serving st |}
  ∧ c ∈ ({[c]} ∪ newSet st : gset Conn)
  ∧ 1 ≤ size ({[c]} ∪ newSet st : gset Conn)
  ∧ fires (size (newSet st)) (track (newSet st) c StateNew) = false
  ∧ (∀ s, fires (size (newSet st)) (track (newSet st) c s) = true →
       s ≠ StateNew ∧ newSet st = {[c]}).
Proof.
  split.
  { unfold hs_ConnState. by rewrite fires_new. }
  split; [apply elem_of_union_l, elem_of_singleton; reflexivity|].
  split.
  { pose proof (track_new (newSet st) c) as Hne. simpl in Hne. lia. }
  split; [apply fires_new|].
  intros s. apply fires_only_last.
Qed.

(** ** Reverse-dial listener *)

(** C7 (as the claim words it, it fails).  A connection that was queued
    before the channel was closed is still returned, with no error: being
    closed is not enough for [Accept] to fail. *)
Lemma chanListener_Accept_closed_with_conn :
  Chan.closed (Chan.close (Chan.Mk [7] 1 false)) = true
  ∧ chanListener_Accept (Chan.close (Chan.Mk [7] 1 false))
    = Some (inl 7, Chan.Mk [] 1 true).
Proof. split; reflexivity. Qed.

(** C7 (amended).  [Accept] returns an error exactly when the channel is
    closed and holds no connection, and the error is "closed"; it returns
    the oldest queued connection, with no error, whenever there is one; it
    blocks exactly when the channel is open and empty.  The error ends the
    serve loop: after it the server accepts nothing more. *)
Theorem chanListener_Accept_spec (cl : Chan.t Conn) :
  ((∃ e cl', chanListener_Accept cl = Some (inr e, cl'))
   ↔ Chan.closed cl = true ∧ Chan.buf cl = [])
  ∧ (∀ e cl', chanListener_Accept cl = Some (inr e, cl') →
       e = "closed"%string ∧ cl' = cl)
  ∧ (∀ c cl', chanListener_Accept cl = Some (inl c, cl')
       ↔ ∃ rest, Chan.buf cl = c :: rest
                 ∧ cl' = Chan.Mk rest (Chan.cap cl) (Chan.closed cl))
  ∧ (chanListener_Accept cl = None
     ↔ Chan.closed cl = false ∧ Chan.buf cl = [])
  ∧ (∀ st e cl',
       conns st = cl → serving st = true →
       chanListener_Accept cl = Some (inr e, cl') →
       ∃ st', exec st (EvAccept (inr e)) = Some st'
              ∧ serving st' = false
              ∧ ∀ r, exec st' (EvAccept r) = None).
Proof.
  unfold chanListener_Accept, Chan.recv.
  destruct cl as [b n cl]; simpl.
  destruct b as [|c0 rest]; [destruct cl|]; simpl.
  - split; [split; [auto | intros _; eauto]|].
    split; [by intros e cl' [= <- <-]|].
    split; [intros c cl'; split; [discriminate | by intros (? & ? & _)]|].
    split; [split; [discriminate | by intros [? _]]|].
    intros st e cl' Hconns Hserving [= <- <-].
    eexists. simpl. rewrite Hserving, Hconns. simpl.
    split; [reflexivity|].
    split; [reflexivity|]. intros r. reflexivity.
  - split; [split; [by intros (? & ? & ?) | by intros [? _]]|].
    split; [discriminate|].
    split; [intros c cl'; split; [discriminate | by intros (? & ? & _)]|].
    split; [done|]. discriminate.
  - split; [split; [by intros (? & ? & ?) | by intros [_ ?]]|].
    split; [discriminate|].
    split.
    { intros c cl'; split.
      - intros [= <- <-]. eauto.
      - intros (r & [= <- <-] & ->). reflexivity. }
    split; [split; [discriminate | by intros [_ ?]]|].
    discriminate.
Qed.

(** ** The [/fw] handler *)

(** C8 (as the claim words it, it fails).  Without firewall support the
    status is 500, but the body is the message followed by a newline, as
    [http.Error] prints it; it is not the bare message. *)
Lemma addFirewallHandler_unsupported_body :
  status (addFirewallHandler None newResponse) = Some 500%Z
  ∧ body (addFirewallHandler None newResponse)
    = ("firewall not supported" +:+ newline)%string
  ∧ String.eqb (body (addFirewallHandler None newResponse))
      "firewall not supported" = false.
Proof. repeat split; vm_compute; reflexivity. Qed.

(** C8 (amended).  On a response nothing was written to yet: with no
    firewall support the status is 500 and the body is "firewall not
    supported" and a newline; when the collaborator returns an error the
    status is 500 and the body is the error text and a newline; otherwise
    the body is "OK" and a newline, with status 200. *)
Theorem addFirewallHandler_spec (addFirewall : option (unit → error))
    (w : ResponseWriter) :
  status w = None →
  let w' := addFirewallHandler addFirewall w in
  match addFirewall with
  | None =>
      status w' = Some 500%Z
      ∧ body w' = (body w +:+ "firewall not supported" +:+ newline)%string
  | Some f =>
      match f tt with
      | Some err =>
          status w' = Some 500%Z ∧ body w' = (body w +:+ err +:+ newline)%string
      | None =>
          status w' = Some 200%Z ∧ body w' = (body w +:+ "OK" +:+ newline)%string
      end
  end.
Proof.
  intros Hfresh.
  destruct addFirewall as [f|]; simpl.
  - destruct (f tt) as [err|]; simpl.
    + unfold http_Error, Response_Write, WriteHeader; simpl.
      rewrite Hfresh; simpl. auto.
    + unfold io_WriteString, Response_Write, WriteHeader; simpl.
      rewrite Hfresh; simpl. auto.
  - unfold http_Error, Response_Write, WriteHeader; simpl.
    rewrite Hfresh; simpl. auto.
Qed.

(** The collaborator fails on a fresh response. *)
Lemma addFirewallHandler_spec_witness :
  status newResponse = None
  ∧ status (addFirewallHandler (Some (λ _, Some "iptables: exit status 1"%string))
              newResponse) = Some 500%Z
  ∧ body (addFirewallHandler (Some (λ _, Some "iptables: exit status 1"%string))
            newResponse)
    = (body newResponse +:+ "iptables: exit status 1" +:+ newline)%string.
Proof.
  split; [reflexivity|].
  exact (addFirewallHandler_spec
           (Some (λ _, Some "iptables: exit status 1"%string))
           newResponse eq_refl).
Defined.

(** ** The log buffer *)

Lemma maxSize_eq : maxSize = 1048576%Z.
Proof. reflexivity. Qed.

Lemma logBuffer_Write_eq (lb : logBuffer) (p : list Byte.byte) :
  logBuffer_Write lb p
  = (if (bytes_Buffer_Len (buf lb) <=? maxSize)%Z
     then {| buf := buf lb ++ p |}
     else lb,
     (Z.of_nat (length p), None)).
Proof.
  unfold logBuffer_Write, bytes_Buffer_Write.
  rewrite Z.gtb_ltb, Z.ltb_antisym.
  destruct (_ <=? _)%Z; reflexivity.
Qed.

(** C9.  A call of [Write] stores all of [p] when the buffer holds at most
    [2^20] bytes at entry and none of it when it holds more, and returns
    [(len(p), nil)] either way; so the length after an accepted write is
    the length before plus [len(p)], which can pass [2^20], and a write is
    never cut to fit. *)
Theorem logBuffer_Write_all_or_nothing (lb : logBuffer) (p : list Byte.byte) :
  snd (logBuffer_Write lb p) = (Z.of_nat (length p), None)
  ∧ buf (fst (logBuffer_Write lb p))
    = (if (bytes_Buffer_Len (buf lb) <=? Z.shiftl 1 20)%Z
       then buf lb ++ p
       else buf lb)
  ∧ bytes_Buffer_Len (buf (fst (logBuffer_Write lb p)))
    = (if (bytes_Buffer_Len (buf lb) <=? Z.shiftl 1 20)%Z
       then bytes_Buffer_Len (buf lb) + Z.of_nat (length p)
       else bytes_Buffer_Len (buf lb))%Z.
Proof.
  rewrite logBuffer_Write_eq. fold maxSize. simpl.
  split; [reflexivity|].
  destruct (_ <=? _)%Z; simpl; split; try reflexivity.
  unfold bytes_Buffer_Len. rewrite length_app. lia.
Qed.

Lemma logBuffer_Write_at_cap (b p : list Byte.byte) :
  bytes_Buffer_Len b = maxSize →
  logBuffer_Write {| buf := b |} p
  = ({| buf := b ++ p |}, (Z.of_nat (length p), None))
  ∧ bytes_Buffer_Len (b ++ p) = (maxSize + Z.of_nat (length p))%Z.
Proof.
  intros Hlen. rewrite logBuffer_Write_eq. cbn [buf].
  rewrite Hlen, Z.leb_refl. split; [reflexivity|].
  unfold bytes_Buffer_Len in *. rewrite length_app. lia.
Qed.

Lemma bytes_Buffer_Len_repeat (x : Byte.byte) (n : Z) :
  (0 ≤ n)%Z → bytes_Buffer_Len (repeat x (Z.to_nat n)) = n.
Proof.
  intros Hn. unfold bytes_Buffer_Len. rewrite repeat_length. lia.
Qed.

(** C2 (as the claim words it, it fails).  A one-byte write to a buffer of
    exactly [2^20] bytes takes the total past the cap; the byte is stored
    all the same, and the buffer then holds [2^20 + 1] bytes. *)
Lemma logBuffer_Write_passes_cap :
  (bytes_Buffer_Len (repeat Byte.x78 (Z.to_nat maxSize)) + 1 > Z.shiftl 1 20)%Z
  ∧ logBuffer_Write {| buf := repeat Byte.x78 (Z.to_nat maxSize) |} [Byte.x0a]
    = ({| buf := repeat Byte.x78 (Z.to_nat maxSize) ++ [Byte.x0a] |},
       (1%Z, None))
  ∧ bytes_Buffer_Len (repeat Byte.x78 (Z.to_nat maxSize) ++ [Byte.x0a])
    = (Z.shiftl 1 20 + 1)%Z.
Proof.
  assert (0 ≤ maxSize)%Z as Hpos by (rewrite maxSize_eq; lia).
  pose proof (bytes_Buffer_Len_repeat Byte.x78 maxSize Hpos) as Hlen.
  fold maxSize. split.
  - rewrite Hlen. lia.
  - exact (logBuffer_Write_at_cap _ [Byte.x0a] Hlen).
Qed.

(** Over a sequence of writes the buffer stays within the cap plus the
    longest single write. *)
Lemma write_all_bound (ps : list (list Byte.byte)) (lb : logBuffer) (m : Z) :
  (0 ≤ m)%Z →
  Forall (λ p, (Z.of_nat (length p) ≤ m)%Z) ps →
  (bytes_Buffer_Len (buf lb) ≤ maxSize + m)%Z →
  (bytes_Buffer_Len (buf (write_all lb ps)) ≤ maxSize + m)%Z.
Proof.
  intros Hm Hps. revert lb. unfold write_all.
  induction Hps as [|p ps Hp _ IH]; intros lb Hlb; simpl; [exact Hlb|].
  apply IH. rewrite logBuffer_Write_eq. cbn [fst].
  destruct (Z.leb_spec (bytes_Buffer_Len (buf lb)) maxSize); [|exact Hlb].
  unfold bytes_Buffer_Len in *. cbn [buf]. rewrite length_app. lia.
Qed.

(** C2 (amended).  [Write] always returns [(N, nil)].  A write that finds
    more than [2^20] bytes buffered is dropped whole and leaves the buffer
    as it was; a write that finds at most [2^20] bytes is stored whole.  So
    over any sequence of writes, each of at most [m] bytes, into an empty
    buffer, the buffer never holds more than [2^20 + m] bytes. *)
Theorem logBuffer_Write_bounded (ps : list (list Byte.byte)) (m : Z)
    (lb : logBuffer) (p : list Byte.byte) :
  (0 ≤ m)%Z →
  Forall (λ q, (Z.of_nat (length q) ≤ m)%Z) ps →
  snd (logBuffer_Write lb p) = (Z.of_nat (length p), None)
  ∧ ((bytes_Buffer_Len (buf lb) > Z.shiftl 1 20)%Z →
       fst (logBuffer_Write lb p) = lb)
  ∧ ((bytes_Buffer_Len (buf lb) ≤ Z.shiftl 1 20)%Z →
       buf (fst (logBuffer_Write lb p)) = buf lb ++ p)
  ∧ (bytes_Buffer_Len (buf (write_all {| buf := [] |} ps)) ≤ Z.shiftl 1 20 + m)%Z.
Proof.
  intros Hm Hps. fold maxSize. rewrite logBuffer_Write_eq. cbn [fst snd].
  split; [reflexivity|]. split; [|split].
  - intros Hgt. destruct (Z.leb_spec (bytes_Buffer_Len (buf lb)) maxSize);
      [lia | reflexivity].
  - intros Hle. destruct (Z.leb_spec (bytes_Buffer_Len (buf lb)) maxSize);
      [reflexivity | lia].
  - apply write_all_bound; [exact Hm | exact Hps |].
    unfold bytes_Buffer_Len. simpl. rewrite maxSize_eq. lia.
Qed.

(** Two short writes into an empty buffer. *)
Lemma logBuffer_Write_bounded_witness :
  (0 ≤ 2)%Z
  ∧ Forall (λ q, (Z.of_nat (length q) ≤ 2)%Z) [[Byte.x68; Byte.x69]; [Byte.x0a]]
  ∧ snd (logBuffer_Write {| buf := [Byte.x68] |} [Byte.x69])
    = (Z.of_nat (length [Byte.x69]), None)
  ∧ ((bytes_Buffer_Len (buf {| buf := [Byte.x68] |}) > Z.shiftl 1 20)%Z →
       fst (logBuffer_Write {| buf := [Byte.x68] |} [Byte.x69])
       = {| buf := [Byte.x68] |})
  ∧ ((bytes_Buffer_Len (buf {| buf := [Byte.x68] |}) ≤ Z.shiftl 1 20)%Z →
       buf (fst (logBuffer_Write {| buf := [Byte.x68] |} [Byte.x69]))
       = buf {| buf := [Byte.x68] |} ++ [Byte.x69])
  ∧ (bytes_Buffer_Len
       (buf (write_all {| buf := [] |} [[Byte.x68; Byte.x69]; [Byte.x0a]]))
     ≤ Z.shiftl 1 20 + 2)%Z.
Proof.
  assert (0 ≤ 2)%Z as H0 by lia.
  assert (Forall (λ q, (Z.of_nat (length q) ≤ 2)%Z)
            [[Byte.x68; Byte.x69]; [Byte.x0a]]) as Hps.
  { repeat constructor; simpl; lia. }
  split; [exact H0|]. split; [exact Hps|].
  exact (logBuffer_Write_bounded [[Byte.x68; Byte.x69]; [Byte.x0a]] 2
           {| buf := [Byte.x68] |} [Byte.x69] H0 Hps).
Defined.

(** * Further properties of the code *)

(** ** The tracker alone *)

(** X1.  A callback for a connection that is not in [newSet], with any
    state other than [StateNew], changes nothing and sends no signal: once a
    connection has left [StateNew], its later transitions (idle, active
    again, closed) never ask for a new dial. *)
Theorem hs_ConnState_untracked_noop (st : State) (c : Conn) (s : http_ConnState) :
  c ∉ newSet st → s ≠ StateNew → hs_ConnState st c s = Some st.
Proof.
  intros Hnotin Hs. unfold hs_ConnState.
  rewrite (track_other _ _ _ Hs).
  assert (newSet st ∖ {[c]} = newSet st) as ->.
  { apply leibniz_equiv, set_equiv. intros x.
    rewrite elem_of_difference, elem_of_singleton. split; [tauto|].
    intros Hx. split; [exact Hx | congruence]. }
  unfold fires. rewrite bool_decide_eq_false_2 by lia.
  by destruct st.
Qed.

Lemma hs_ConnState_untracked_noop_witness :
  hs_ConnState
    {| newSet := {[8]}; needConnCh := Chan.make 1; conns := Chan.make 1;
       pc := PcRecv; lastErr := EmptyString; logged := []; serving := true |}
    7 StateClosed
  = Some {| newSet := {[8]}; needConnCh := Chan.make 1; conns := Chan.make 1;
            pc := PcRecv; lastErr := EmptyString; logged := []; serving := true |}.
Proof.
  apply hs_ConnState_untracked_noop; [vm_compute; discriminate | discriminate].
Defined.

(** X2.  Round trip of one connection through the tracker: reporting [c]
    as new and then in any other state gives [newSet] back as it was; the
    signal is sent in the second call exactly when [c] was alone, that is
    when [newSet] was empty before, and a signal already pending is left as
    it is. *)
Theorem hs_ConnState_new_then_leave (st : State) (c : Conn) (s : http_ConnState) :
  c ∉ newSet st → s ≠ StateNew →
  Chan.closed (needConnCh st) = false → Chan.cap (needConnCh st) = 1 →
  ∃ st1 st2,
    hs_ConnState st c StateNew = Some st1
    ∧ hs_ConnState st1 c s = Some st2
    ∧ newSet st2 = newSet st
    ∧ needConnCh st2
      = (if decide (newSet st = ∅)
         then if decide (Chan.buf (needConnCh st) = [])
              then Chan.Mk [true] 1 false
              else needConnCh st
         else needConnCh st).
Proof.
  intros Hnotin Hs Hopen Hcap.
  assert (track (newSet st) c StateNew ∖ {[c]} = newSet st) as Hback.
  { apply leibniz_equiv, set_equiv. intros x. simpl.
    rewrite elem_of_difference, elem_of_union, elem_of_singleton.
    split; [tauto|]. intros Hx. split; [tauto | congruence]. }
  pose proof (track_new (newSet st) c) as Hne.
  exists (MkState (track (newSet st) c StateNew) (needConnCh st) (conns st)
            (pc st) (lastErr st) (logged st) (serving st)).
  unfold hs_ConnState at 1. rewrite fires_new.
  unfold hs_ConnState, fires. cbn [newSet needConnCh].
  rewrite (track_other _ _ _ Hs), Hback.
  case_bool_decide as Hf.
  - destruct Hf as [_ Hz]. apply size_empty_inv, leibniz_equiv in Hz.
    rewrite try_send_open by done. simpl.
    eexists. split; [reflexivity|]. split; [reflexivity|]. simpl.
    split; [reflexivity|].
    rewrite decide_True by done.
    unfold Chan.full. rewrite Hcap.
    destruct (needConnCh st) as [b n cl]; simpl in *. subst.
    destruct b; reflexivity.
  - eexists. split; [reflexivity|]. split; [reflexivity|]. simpl.
    split; [reflexivity|].
    rewrite decide_False; [reflexivity|].
    intros Hempty. apply Hf. split; [exact Hne|].
    rewrite Hempty. apply size_empty.
Qed.

Lemma hs_ConnState_new_then_leave_witness :
  ∃ st1 st2,
    hs_ConnState init 7 StateNew = Some st1
    ∧ hs_ConnState st1 7 StateActive = Some st2
    ∧ newSet st2 = newSet init
    ∧ needConnCh st2
      = (if decide (newSet init = ∅)
         then if decide (Chan.buf (needConnCh init) = [])
              then Chan.Mk [true] 1 false
              else needConnCh init
         else needConnCh init).
Proof.
  apply (hs_ConnState_new_then_leave init 7 StateActive);
    [vm_compute; discriminate | discriminate | reflexivity | reflexivity].
Defined.

(** ** Executions: what never happens *)

Lemma exec_serving (st st' : State) (ev : Event) :
  Chan.closed (conns st) = false →
  exec st ev = Some st' → serving st' = serving st.
Proof.
  intros Hopen H. exec_cases st ev H; try reflexivity.
  - by destruct d.
  - match goal with
    | E : chanListener_Accept _ = Some _ |- _ =>
        unfold chanListener_Accept, Chan.recv in E; rewrite Hopen in E;
        destruct (Chan.buf (conns st)); simplify_eq/=
    end.
    reflexivity.
Qed.

Lemma run_serving (tr : list Event) (st st' : State) :
  wf st → run st tr = Some st' → serving st' = serving st.
Proof.
  revert st. induction tr as [|ev tr IH]; intros st Hwf H; simpl in H.
  - by simplify_eq.
  - destruct (exec st ev) as [st1|] eqn:E; [|discriminate].
    rewrite (IH st1); [| by eapply wf_exec | exact H].
    eapply exec_serving; [|exact E]. apply Hwf.
Qed.

(** X3.  In every execution [hs.Serve] is still running: nothing closes
    [conns] or [needConnCh], so [Accept] never returns its error and the
    callback's send never panics. *)
Theorem serve_loop_never_ends (tr : list Event) (st : State) :
  run init tr = Some st →
  serving st = true
  ∧ Chan.closed (conns st) = false
  ∧ Chan.closed (needConnCh st) = false
  ∧ (∀ e, exec st (EvAccept (inr e)) = None)
  ∧ (∀ c s, is_Some (hs_ConnState st c s)).
Proof.
  intros Hrun.
  pose proof (run_wf _ _ _ wf_init Hrun) as Hwf.
  pose proof (run_serving _ _ _ wf_init Hrun) as Hserving.
  destruct Hwf as (Hc1 & Hc2 & _).
  split; [exact Hserving|]. split; [exact Hc2|]. split; [exact Hc1|]. split.
  - intros e. simpl. rewrite Hserving. simpl.
    unfold chanListener_Accept, Chan.recv. rewrite Hc2.
    destruct (Chan.buf (conns st)); simpl; reflexivity.
  - intros c s. unfold hs_ConnState. destruct (fires _ _); [|eauto].
    rewrite try_send_open by done. simpl. eauto.
Qed.

Lemma serve_loop_never_ends_witness :
  ∃ st,
    run init [EvInject; EvRecv; EvDial (inl 7); EvSend; EvAccept (inl 7)] = Some st
    ∧ serving st = true
    ∧ Chan.closed (conns st) = false
    ∧ Chan.closed (needConnCh st) = false
    ∧ (∀ e, exec st (EvAccept (inr e)) = None)
    ∧ (∀ c s, is_Some (hs_ConnState st c s)).
Proof.
  eexists. split; [vm_compute; reflexivity|].
  apply (serve_loop_never_ends
           [EvInject; EvRecv; EvDial (inl 7); EvSend; EvAccept (inl 7)]).
  vm_compute; reflexivity.
Defined.

Lemma exec_deliveries (st st' : State) (ev : Event) :
  exec st ev = Some st' →
  (if is_ok_dial ev then 1 else 0) + sending st + length (Chan.buf (conns st))
  = (if is_accept ev then 1 else 0) + sending st' + length (Chan.buf (conns st')).
Proof.
  intros H. pose proof (exec_pc _ _ _ H) as Hpc. unfold sending.
  exec_cases st ev H;
    repeat match goal with
           | H : _ ∧ _ |- _ => destruct H
           | H : ∃ _, _ |- _ => destruct H
           | E : Chan.send_blocking _ _ = Some _ |- _ =>
               apply send_blocking_Some in E as (_ & _ & ->)
           end; simpl in *;
    try (simpl; try rewrite length_app; simpl; lia).
  - destruct d; reflexivity.
  - match goal with
    | E : chanListener_Accept _ = Some _ |- _ =>
        unfold chanListener_Accept, Chan.recv in E;
        destruct (Chan.buf (conns st)) as [|c0 rest] eqn:Hb; simpl in E;
        [destruct (Chan.closed (conns st)); simplify_eq/= | simplify_eq/=]
    end; try rewrite Hb; simpl; lia.
Qed.

Lemma run_deliveries (tr : list Event) (st st' : State) :
  run st tr = Some st' →
  ok_dial_count tr + sending st + length (Chan.buf (conns st))
  = accept_count tr + sending st' + length (Chan.buf (conns st')).
Proof.
  unfold ok_dial_count, accept_count.
  revert st. induction tr as [|ev tr IH]; intros st H; simpl in H.
  - by simplify_eq.
  - destruct (exec st ev) as [st1|] eqn:E; [|discriminate].
    specialize (IH _ H). apply exec_deliveries in E. simpl.
    destruct (is_ok_dial ev), (is_accept ev); simpl; lia.
Qed.

(** X4.  No dialled connection is lost or served twice on its way to the
    server: in every execution the connections [connect] returned are the
    ones [Accept] has handed out, plus the one waiting in [conns], plus the
    one the supervisor is about to send. *)
Theorem dialled_connections_accounted (tr : list Event) (st : State) :
  run init tr = Some st →
  ok_dial_count tr
  = accept_count tr + length (Chan.buf (conns st)) + sending st.
Proof.
  intros Hrun. pose proof (run_deliveries _ _ _ Hrun) as H.
  change (sending init) with 0 in H.
  change (length (Chan.buf (conns init))) with 0 in H. lia.
Qed.

Lemma dialled_connections_accounted_witness :
  ∃ st,
    run init [EvInject; EvRecv; EvDial (inl 7); EvSend; EvAccept (inl 7);
              EvConnState 7 StateNew; EvConnState 7 StateActive; EvRecv;
              EvDial (inl 8); EvSend] = Some st
    ∧ ok_dial_count
        [EvInject; EvRecv; EvDial (inl 7); EvSend; EvAccept (inl 7);
         EvConnState 7 StateNew; EvConnState 7 StateActive; EvRecv;
         EvDial (inl 8); EvSend]
      = accept_count
          [EvInject; EvRecv; EvDial (inl 7); EvSend; EvAccept (inl 7);
           EvConnState 7 StateNew; EvConnState 7 StateActive; EvRecv;
           EvDial (inl 8); EvSend]
        + length (Chan.buf (conns st)) + sending st.
Proof.
  eexists. split; [vm_compute; reflexivity|].
  apply dialled_connections_accounted. vm_compute; reflexivity.
Defined.

Lemma distinct_neighbours_snoc (l : list LogLine) (x : LogLine) :
  distinct_neighbours l = true → last l ≠ Some x →
  distinct_neighbours (l ++ [x]) = true.
Proof.
  induction l as [|a l IH]; [reflexivity|].
  destruct l as [|b l]; intros Hd Hlast.
  - simpl in *. rewrite bool_decide_eq_false_2 by congruence. reflexivity.
  - change (distinct_neighbours ((a :: b :: l) ++ [x]))
      with (negb (bool_decide (a = b)) && distinct_neighbours ((b :: l) ++ [x])).
    change (distinct_neighbours (a :: b :: l))
      with (negb (bool_decide (a = b)) && distinct_neighbours (b :: l)) in Hd.
    apply andb_true_iff in Hd as [Hab Hd].
    rewrite Hab. simpl negb. apply IH; [exact Hd|].
    exact Hlast.
Qed.

Lemma after_connect_distinct (st : State) (e : string) :
  lastErr st = last_logged (logged st) →
  distinct_neighbours (logged st) = true →
  distinct_neighbours (logged (after_connect st (inr e))) = true.
Proof.
  intros Hinv Hd. unfold after_connect; simpl.
  case_bool_decide as Hne; [|exact Hd].
  apply distinct_neighbours_snoc; [exact Hd|].
  intros Hlast. apply Hne. rewrite Hinv. unfold last_logged.
  by rewrite Hlast.
Qed.

Lemma run_distinct (tr : list Event) (st st' : State) :
  lastErr st = last_logged (logged st) →
  distinct_neighbours (logged st) = true →
  run st tr = Some st' →
  distinct_neighbours (logged st') = true.
Proof.
  revert st. induction tr as [|ev tr IH]; intros st Hinv Hd H; simpl in H.
  - by simplify_eq.
  - destruct (exec st ev) as [st1|] eqn:E; [|discriminate].
    apply (IH st1); [| |exact H].
    + eapply (run_lastErr [ev]); [exact Hinv|]. simpl. by rewrite E.
    + destruct (exec_logged _ _ _ E) as [(e & -> & ->) | [Hl Hg]].
      * by apply after_connect_distinct.
      * by rewrite Hg.
Qed.

(** X5.  The supervisor's log never shows the same "Connect failure" line
    twice in a row, whatever the dials return and however many fail. *)
Theorem log_never_repeats (tr : list Event) (st : State) :
  run init tr = Some st → distinct_neighbours (logged st) = true.
Proof. intros Hrun. by eapply run_distinct; [| |exact Hrun]. Qed.

Lemma log_never_repeats_witness :
  ∃ st,
    run init [EvInject; EvRecv; EvDial (inr "refused"%string); EvWake;
              EvConnState 1 StateNew; EvConnState 1 StateClosed; EvRecv;
              EvDial (inr "refused"%string); EvWake;
              EvConnState 1 StateNew; EvConnState 1 StateClosed; EvRecv;
              EvDial (inr "timeout"%string)] = Some st
    ∧ logged st = [LogConnectFailure "refused"; LogConnectFailure "timeout"]
    ∧ distinct_neighbours (logged st) = true.
Proof.
  eexists. split; [vm_compute; reflexivity|].
  split; [vm_compute; reflexivity|].
  apply (log_never_repeats
           [EvInject; EvRecv; EvDial (inr "refused"%string); EvWake;
            EvConnState 1 StateNew; EvConnState 1 StateClosed; EvRecv;
            EvDial (inr "refused"%string); EvWake;
            EvConnState 1 StateNew; EvConnState 1 StateClosed; EvRecv;
            EvDial (inr "timeout"%string)]).
  vm_compute; reflexivity.
Defined.

(** ** Executions with a well-behaved server: where the need for a
    connection is *)

(** Only a failed dial destroys the token. *)
Lemma exec_tokens_eq (st st' : State) (ev : Event) (fresh fresh' : list Conn) :
  wf st →
  tokens st fresh ≤ 1 →
  exec st ev = Some st' →
  server_step fresh ev = Some fresh' →
  is_failed_dial ev = false →
  tokens st' fresh' = tokens st fresh.
Proof.
  intros (Hc1 & Hc2 & Hk1 & Hk2 & Hl1 & Hl2) Hle H Hs Hok.
  unfold tokens in *.
  destruct ev as [| |d| | |r|c s]; simpl in H.
  - destruct (pc st) eqn:Hpc; try discriminate.
    destruct (Chan.send_blocking _ _) as [ch|] eqn:E; simplify_eq/=.
    apply send_blocking_Some in E as (_ & Hlt & ->); simpl.
    rewrite length_app; simpl. lia.
  - destruct (pc st) eqn:Hpc; try discriminate.
    destruct (Chan.recv _) as [[r ch]|] eqn:E; simplify_eq/=.
    apply recv_Some in E as (v & -> & Hb & Hk & Hcl); [|done].
    rewrite Hb; simpl. lia.
  - destruct (pc st) eqn:Hpc; try discriminate. simplify_eq/=.
    destruct d as [c|e]; [reflexivity | discriminate].
  - destruct (pc st) eqn:Hpc; try discriminate. simplify_eq/=. reflexivity.
  - destruct (pc st) eqn:Hpc; try discriminate.
    destruct (Chan.send_blocking _ _) as [ch|] eqn:E; simplify_eq/=.
    apply send_blocking_Some in E as (_ & Hlt & ->); simpl.
    rewrite length_app; simpl. lia.
  - destruct (serving st); try discriminate.
    unfold chanListener_Accept in H.
    destruct (Chan.recv _) as [[r' ch]|] eqn:E; [|discriminate].
    apply recv_Some in E as (v & -> & Hb & Hk & Hcl); [|done].
    simpl in H. case_decide; simplify_eq/=.
    rewrite Hb; simpl. lia.
  - unfold hs_ConnState in H.
    destruct (fires _ _) eqn:Hf.
    + apply fires_only_last in Hf as [Hne Hset].
      rewrite try_send_open in H by done. simplify_eq/=.
      assert (fresh' = fresh) as -> by (destruct s; simplify_eq/=; done).
      rewrite (track_other _ _ _ Hne), Hset in *.
      rewrite difference_diag_L, size_empty.
      rewrite size_singleton in *.
      unfold Chan.full. rewrite Hk1.
      destruct (Chan.buf (needConnCh st)) as [|b rest]; simpl in *; lia.
    + simplify_eq/=. destruct (decide (s = StateNew)) as [->|Hne].
      * simpl in Hs. apply take_fresh_length in Hs.
        assert (newSet st = ∅) as Hempty
          by (apply leibniz_equiv, size_empty_inv; lia).
        rewrite Hempty in *. unfold track.
        rewrite union_empty_r_L, size_singleton. rewrite size_empty in *. lia.
      * assert (fresh' = fresh) as -> by (destruct s; simplify_eq/=; done).
        pose proof (size_track_le (newSet st) c s Hne) as Hsz.
        unfold fires in Hf. apply bool_decide_eq_false in Hf.
        assert (size (track (newSet st) c s) = size (newSet st)); [|lia].
        destruct (decide (size (newSet st) = 0)); [lia|].
        destruct (decide (size (track (newSet st) c s) = 0)); [|lia].
        exfalso. apply Hf. auto.
Qed.

Lemma failed_count_cons (ev : Event) (tr : list Event) :
  failed_count (ev :: tr) = 0 →
  is_failed_dial ev = false ∧ failed_count tr = 0.
Proof.
  unfold failed_count. simpl. destruct (is_failed_dial ev); simpl; [lia | auto].
Qed.

Lemma run_tokens_eq (tr : list Event) (st st' : State) (fresh fresh' : list Conn) :
  wf st →
  tokens st fresh ≤ 1 →
  run st tr = Some st' →
  server_run fresh tr = Some fresh' →
  failed_count tr = 0 →
  tokens st' fresh' = tokens st fresh.
Proof.
  revert st fresh. induction tr as [|ev tr IH];
    intros st fresh Hwf Hle H Hs Hff; simpl in H, Hs.
  - by simplify_eq.
  - destruct (exec st ev) as [st1|] eqn:E; [|discriminate].
    destruct (server_step fresh ev) as [f1|] eqn:Ef; [|discriminate].
    apply failed_count_cons in Hff as [Hok Hff].
    destruct (exec_tokens _ _ _ _ _ Hwf E Ef) as [Hwf1 Hle1].
    rewrite (IH st1 f1); [| done | lia | done | done | done].
    by apply (exec_tokens_eq st st1 ev fresh f1).
Qed.

Lemma run_no_sleep (tr : list Event) (st st' : State) :
  pc st ≠ PcSleep →
  run st tr = Some st' →
  failed_count tr = 0 →
  pc st' ≠ PcSleep.
Proof.
  revert st. induction tr as [|ev tr IH]; intros st Hpc H Hff; simpl in H.
  - by simplify_eq.
  - destruct (exec st ev) as [st1|] eqn:E; [|discriminate].
    apply failed_count_cons in Hff as [Hok Hff].
    apply (IH st1); [|exact H|exact Hff].
    apply exec_pc in E.
    destruct ev as [| |[c|e]| | |r|c s]; simpl in *; try discriminate;
      try (by rewrite E); destruct E as [_ E]; rewrite E; discriminate.
Qed.

(** X6.  As long as no dial has failed, the need for a connection is never
    lost and never doubled: in every execution with a well-behaved server
    there is exactly one of a pending signal, a supervisor that owes a
    connection, a connection in [conns], a connection accepted and not yet
    reported, and a connection in [newSet]. *)
Theorem need_for_connection_conserved (tr : list Event) (st : State)
    (fresh : list Conn) :
  run init tr = Some st →
  server_run [] tr = Some fresh →
  failed_count tr = 0 →
  length (Chan.buf (needConnCh st)) + pc_tokens (pc st)
  + length (Chan.buf (conns st)) + length fresh + size (newSet st) = 1.
Proof.
  intros Hrun Hsrv Hff.
  pose proof (run_tokens_eq _ _ _ _ _ wf_init
                ltac:(rewrite tokens_init; lia) Hrun Hsrv Hff) as H.
  rewrite tokens_init in H. exact H.
Qed.

Lemma need_for_connection_conserved_witness :
  ∃ st,
    run init [EvInject; EvRecv; EvDial (inl 7); EvSend; EvAccept (inl 7);
              EvConnState 7 StateNew; EvConnState 7 StateActive;
              EvConnState 7 StateIdle] = Some st
    ∧ length (Chan.buf (needConnCh st)) + pc_tokens (pc st)
      + length (Chan.buf (conns st)) + length ([] : list Conn)
      + size (newSet st) = 1.
Proof.
  eexists. split; [vm_compute; reflexivity|].
  apply (need_for_connection_conserved
           [EvInject; EvRecv; EvDial (inl 7); EvSend; EvAccept (inl 7);
            EvConnState 7 StateNew; EvConnState 7 StateActive;
            EvConnState 7 StateIdle]);
    vm_compute; reflexivity.
Defined.

(** X7.  As long as no dial has failed, the agent is never stuck with
    nothing in flight: in every state of an execution with a well-behaved
    server, the supervisor can take its next step, or the server can accept
    the connection waiting in [conns], or the server holds a connection
    that is still new (and whose next transition will send the signal). *)
Theorem never_stuck_without_failure (tr : list Event) (st : State)
    (fresh : list Conn) :
  run init tr = Some st →
  server_run [] tr = Some fresh →
  failed_count tr = 0 →
  (∃ ev st',
      (ev = EvInject ∨ ev = EvRecv ∨ (∃ d, ev = EvDial d) ∨ ev = EvSend)
      ∧ exec st ev = Some st')
  ∨ (∃ c st', exec st (EvAccept (inl c)) = Some st')
  ∨ fresh ≠ []
  ∨ newSet st ≠ ∅.
Proof.
  intros Hrun Hsrv Hff.
  pose proof (need_for_connection_conserved _ _ _ Hrun Hsrv Hff) as Htok.
  pose proof (run_wf _ _ _ wf_init Hrun) as (Hc1 & Hc2 & Hk1 & Hk2 & Hl1 & Hl2).
  pose proof (run_serving _ _ _ wf_init Hrun) as Hserving.
  assert (pc st ≠ PcSleep) as Hawake
    by (eapply run_no_sleep; [|exact Hrun|exact Hff]; discriminate).
  destruct fresh as [|c0 fresh]; [|right; right; left; discriminate].
  destruct (decide (newSet st = ∅)) as [Hempty|]; [|right; right; right; done].
  rewrite Hempty, size_empty in Htok. simpl in Htok.
  destruct (Chan.buf (conns st)) as [|c rest] eqn:Hbuf.
  - left. destruct (pc st) eqn:Hpc; simpl in Htok.
    + destruct (Chan.buf (needConnCh st)) eqn:Hb; simpl in Htok; [|lia].
      exists EvInject. eexists. split; [auto|]. simpl. rewrite Hpc.
      unfold Chan.send_blocking, Chan.send, Chan.full.
      rewrite Hc1, Hk1, Hb. reflexivity.
    + destruct (Chan.buf (needConnCh st)) eqn:Hb; simpl in Htok; [lia|].
      exists EvRecv. eexists. split; [auto|]. simpl. rewrite Hpc.
      unfold Chan.recv. rewrite Hb. reflexivity.
    + exists (EvDial (inr EmptyString)). eexists. split; [eauto|].
      simpl. rewrite Hpc. reflexivity.
    + done.
    + exists EvSend. eexists. split; [auto|]. simpl. rewrite Hpc.
      unfold Chan.send_blocking, Chan.send, Chan.full.
      rewrite Hc2, Hk2, Hbuf. reflexivity.
  - right; left. exists c. eexists. simpl. rewrite Hserving. simpl.
    unfold chanListener_Accept, Chan.recv. rewrite Hbuf. simpl.
    rewrite decide_True by done. reflexivity.
Qed.

Lemma never_stuck_without_failure_witness :
  ∃ st,
    run init [EvInject; EvRecv; EvDial (inl 7); EvSend] = Some st
    ∧ ((∃ ev st',
           (ev = EvInject ∨ ev = EvRecv ∨ (∃ d, ev = EvDial d) ∨ ev = EvSend)
           ∧ exec st ev = Some st')
       ∨ (∃ c st', exec st (EvAccept (inl c)) = Some st')
       ∨ ([] : list Conn) ≠ []
       ∨ newSet st ≠ ∅).
Proof.
  eexists. split; [vm_compute; reflexivity|].
  apply (never_stuck_without_failure
           [EvInject; EvRecv; EvDial (inl 7); EvSend]);
    vm_compute; reflexivity.
Defined.

(** X8.  With a well-behaved server the send of line 210 never blocks:
    whenever the supervisor holds a dialled connection, [conns] is empty and
    the send completes at once. *)
Theorem send_never_blocks (tr : list Event) (st : State) (c : Conn) :
  run init tr = Some st →
  server_discipline tr = true →
  pc st = PcSend c →
  Chan.buf (conns st) = []
  ∧ exec st EvSend = Some (set_pc (set_conns st (Chan.Mk [c] 1 false)) PcRecv).
Proof.
  intros Hrun Hdisc Hpc. unfold server_discipline in Hdisc.
  destruct (server_run [] tr) as [f|] eqn:Hsrv; [|discriminate].
  destruct (run_tokens _ _ _ _ _ wf_init Hrun Hsrv)
    as [(Hc1 & Hc2 & Hk1 & Hk2 & Hl1 & Hl2) Hle].
  rewrite tokens_init in Hle. unfold tokens in Hle.
  rewrite Hpc in Hle. simpl in Hle.
  assert (Chan.buf (conns st) = []) as Hbuf
    by (destruct (Chan.buf (conns st)); [done | simpl in Hle; lia]).
  split; [exact Hbuf|]. simpl. rewrite Hpc.
  unfold Chan.send_blocking, Chan.send, Chan.full.
  rewrite Hc2, Hk2, Hbuf. reflexivity.
Qed.

Lemma send_never_blocks_witness :
  ∃ st,
    run init [EvInject; EvRecv; EvDial (inl 7)] = Some st
    ∧ Chan.buf (conns st) = []
    ∧ exec st EvSend = Some (set_pc (set_conns st (Chan.Mk [7] 1 false)) PcRecv).
Proof.
  eexists. split; [vm_compute; reflexivity|].
  apply (send_never_blocks [EvInject; EvRecv; EvDial (inl 7)]);
    vm_compute; reflexivity.
Defined.

(** X9.  With a well-behaved server [newSet] never holds more than one
    connection, and while a connection waits in [conns] or is still in
    [newSet] nothing else is under way: no signal is pending, the supervisor
    is asleep or waiting for the signal, and [conns] and [newSet] are not
    both occupied. *)
Theorem one_connection_at_a_time (tr : list Event) (st : State) :
  run init tr = Some st →
  server_discipline tr = true →
  size (newSet st) ≤ 1
  ∧ (newSet st ≠ ∅ ∨ Chan.buf (conns st) ≠ [] →
       Chan.buf (needConnCh st) = [] ∧ (pc st = PcRecv ∨ pc st = PcSleep))
  ∧ (newSet st ≠ ∅ → Chan.buf (conns st) = []).
Proof.
  intros Hrun Hdisc. unfold server_discipline in Hdisc.
  destruct (server_run [] tr) as [f|] eqn:Hsrv; [|discriminate].
  destruct (run_tokens _ _ _ _ _ wf_init Hrun Hsrv) as [_ Hle].
  rewrite tokens_init in Hle. unfold tokens in Hle.
  assert (∀ X : gset Conn, X ≠ ∅ → 1 ≤ size X) as Hpos.
  { intros X HX. destruct (decide (size X = 0)) as [Hz|]; [|lia].
    apply size_empty_inv, leibniz_equiv in Hz. done. }
  split; [lia|]. split.
  - intros Hbusy.
    assert (1 ≤ size (newSet st) + length (Chan.buf (conns st))) as Hone.
    { destruct Hbusy as [Hn|Hb]; [apply Hpos in Hn; lia|].
      destruct (Chan.buf (conns st)); [done | simpl; lia]. }
    split.
    + destruct (Chan.buf (needConnCh st)); [done | simpl in Hle; lia].
    + destruct (pc st); simpl in Hle; auto; lia.
  - intros Hn. apply Hpos in Hn.
    destruct (Chan.buf (conns st)); [done | simpl in Hle; lia].
Qed.

Lemma one_connection_at_a_time_witness :
  ∃ st,
    run init [EvInject; EvRecv; EvDial (inl 7); EvSend; EvAccept (inl 7);
              EvConnState 7 StateNew] = Some st
    ∧ size (newSet st) ≤ 1
    ∧ (newSet st ≠ ∅ ∨ Chan.buf (conns st) ≠ [] →
         Chan.buf (needConnCh st) = [] ∧ (pc st = PcRecv ∨ pc st = PcSleep))
    ∧ (newSet st ≠ ∅ → Chan.buf (conns st) = []).
Proof.
  eexists. split; [vm_compute; reflexivity|].
  apply (one_connection_at_a_time
           [EvInject; EvRecv; EvDial (inl 7); EvSend; EvAccept (inl 7);
            EvConnState 7 StateNew]);
    vm_compute; reflexivity.
Defined.

(** ** The log buffer over many writes *)

Lemma write_all_cons (lb : logBuffer) (p : list Byte.byte) (ps : list (list Byte.byte)) :
  write_all lb (p :: ps) = write_all (fst (logBuffer_Write lb p)) ps.
Proof. reflexivity. Qed.

(** X10.  Once the buffer holds more than [2^20] bytes it is frozen: no
    later write, however many follow, changes it. *)
Theorem logBuffer_frozen_over_cap (lb : logBuffer) (ps : list (list Byte.byte)) :
  (bytes_Buffer_Len (buf lb) > maxSize)%Z → write_all lb ps = lb.
Proof.
  intros Hover. induction ps as [|p ps IH]; [reflexivity|].
  rewrite write_all_cons, logBuffer_Write_eq. cbn [fst].
  destruct (Z.leb_spec (bytes_Buffer_Len (buf lb)) maxSize); [lia | exact IH].
Qed.

Lemma logBuffer_frozen_over_cap_witness :
  (bytes_Buffer_Len (buf {| buf := repeat Byte.x78 (Z.to_nat (maxSize + 1)) |})
   > maxSize)%Z
  ∧ write_all {| buf := repeat Byte.x78 (Z.to_nat (maxSize + 1)) |}
      [[Byte.x68; Byte.x69]; [Byte.x0a]]
    = {| buf := repeat Byte.x78 (Z.to_nat (maxSize + 1)) |}.
Proof.
  assert (bytes_Buffer_Len
            (buf {| buf := repeat Byte.x78 (Z.to_nat (maxSize + 1)) |})
          > maxSize)%Z as Hover.
  { cbn [buf]. rewrite bytes_Buffer_Len_repeat; rewrite maxSize_eq; lia. }
  split; [exact Hover|].
  exact (logBuffer_frozen_over_cap _ [[Byte.x68; Byte.x69]; [Byte.x0a]] Hover).
Defined.

Lemma write_all_prefix (ps : list (list Byte.byte)) (lb : logBuffer) :
  ∃ k, k ≤ length ps
       ∧ buf (write_all lb ps) = buf lb ++ concat (take k ps)
       ∧ (k = length ps ∨ (bytes_Buffer_Len (buf (write_all lb ps)) > maxSize)%Z).
Proof.
  revert lb. induction ps as [|p ps IH]; intros lb.
  - exists 0. simpl. rewrite app_nil_r. auto.
  - rewrite write_all_cons, logBuffer_Write_eq. cbn [fst].
    destruct (Z.leb_spec (bytes_Buffer_Len (buf lb)) maxSize) as [Hle|Hgt].
    + destruct (IH {| buf := buf lb ++ p |}) as (k & Hk & Hbuf & Hfull).
      exists (S k). simpl. split; [lia|]. split.
      * rewrite Hbuf. cbn [buf]. by rewrite <- app_assoc.
      * destruct Hfull as [->|Hover]; [left; reflexivity | right; exact Hover].
    + exists 0. rewrite logBuffer_frozen_over_cap by lia.
      simpl. rewrite app_nil_r. split; [lia|]. split; [reflexivity|].
      right. lia.
Qed.

(** X11.  What the buffer holds after any sequence of writes into an empty
    buffer is the first [k] writes, whole and in order, for some [k]: no
    write is cut, skipped or reordered; and either that is all of them or
    the buffer holds more than [2^20] bytes.  So the buffer captures at
    least the first mebibyte of the log. *)
Theorem logBuffer_captures_prefix (ps : list (list Byte.byte)) :
  ∃ k, k ≤ length ps
       ∧ buf (write_all {| buf := [] |} ps) = concat (take k ps)
       ∧ (k = length ps
          ∨ (bytes_Buffer_Len (buf (write_all {| buf := [] |} ps)) > Z.shiftl 1 20)%Z).
Proof. exact (write_all_prefix ps {| buf := [] |}). Qed.

Lemma concat_take_length (ps : list (list Byte.byte)) (k : nat) :
  length (concat (take k ps)) ≤ length (concat ps).
Proof.
  revert k. induction ps as [|p ps IH]; intros [|k]; simpl;
    rewrite ?length_app; try lia.
  specialize (IH k). lia.
Qed.

(** X12.  Nothing is lost while the log fits: when all the writes together
    are at most [2^20] bytes, the buffer holds exactly their
    concatenation. *)
Theorem logBuffer_keeps_all_within_cap (ps : list (list Byte.byte)) :
  (Z.of_nat (length (concat ps)) ≤ maxSize)%Z →
  buf (write_all {| buf := [] |} ps) = concat ps.
Proof.
  intros Hfit.
  destruct (write_all_prefix ps {| buf := [] |}) as (k & Hk & Hbuf & Hfull).
  simpl in Hbuf. destruct Hfull as [->|Hover].
  - by rewrite Hbuf, firstn_all.
  - exfalso. rewrite Hbuf in Hover. unfold bytes_Buffer_Len in Hover.
    pose proof (concat_take_length ps k). lia.
Qed.

Lemma logBuffer_keeps_all_within_cap_witness :
  (Z.of_nat (length (concat [[Byte.x68; Byte.x69]; [Byte.x0a]])) ≤ maxSize)%Z
  ∧ buf (write_all {| buf := [] |} [[Byte.x68; Byte.x69]; [Byte.x0a]])
    = concat [[Byte.x68; Byte.x69]; [Byte.x0a]].
Proof.
  assert (Z.of_nat (length (concat [[Byte.x68; Byte.x69]; [Byte.x0a]]))
          ≤ maxSize)%Z as Hfit by (rewrite maxSize_eq; simpl; lia).
  split; [exact Hfit|].
  exact (logBuffer_keeps_all_within_cap [[Byte.x68; Byte.x69]; [Byte.x0a]] Hfit).
Defined.

(** ** The command handlers *)

Lemma find_filter_other (k k' : string) (l : list (string * string)) :
  k ≠ k' →
  List.find (λ kv, String.eqb (fst kv) k')
    (List.filter (λ kv, negb (String.eqb (fst kv) k)) l)
  = List.find (λ kv, String.eqb (fst kv) k') l.
Proof.
  intros Hne. induction l as [|[a b] l IH]; [reflexivity|]. simpl.
  destruct (String.eqb_spec a k) as [->|Hak]; simpl.
  - destruct (String.eqb_spec k k'); [done | exact IH].
  - destruct (String.eqb_spec a k'); [reflexivity | exact IH].
Qed.

Lemma Header_Get_Set (w : ResponseWriter) (k k' v : string) :
  Header_Get (Header_Set w k v) k'
  = if String.eqb k k' then v else Header_Get w k'.
Proof.
  unfold Header_Get, Header_Set. simpl.
  destruct (String.eqb_spec k k') as [->|Hne]; [reflexivity|].
  by rewrite find_filter_other.
Qed.

(** X13.  [absify] is idempotent, and on Gokrazy its result always names a
    path: it contains a slash, whether the command had one or got the
    [/user/] prefix. *)
Theorem absify_idempotent (gokrazy : bool) (cmd : string) :
  absify gokrazy (absify gokrazy cmd) = absify gokrazy cmd
  ∧ strings_Contains (absify true cmd) "/" = true.
Proof.
  assert (strings_Contains ("/user/" +:+ cmd) "/" = true) as Hslash.
  { reflexivity. }
  unfold absify. split.
  - destruct gokrazy; [|reflexivity]. cbn [andb].
    destruct (strings_Contains cmd "/") eqn:Hc; cbn [negb].
    + by rewrite Hc.
    + by rewrite Hslash.
  - cbn [andb]. destruct (strings_Contains cmd "/") eqn:Hc; cbn [negb];
      [exact Hc | exact Hslash].
Qed.

(** X14.  [serveCmd] on a response nothing was written to yet: the body is
    what the command printed, error or not; the content type is plain text;
    a failed command gives status 500 and its error text in the [Exec-Err]
    header, a successful one status 200 and leaves [Exec-Err] alone.  The
    command that runs is [absify cmd]. *)
Theorem serveCmd_response (gokrazy : bool)
    (CombinedOutput : string → list string → string * error)
    (w : ResponseWriter) (cmd : string) (args : list string) :
  status w = None →
  let w' := serveCmd gokrazy CombinedOutput w cmd args in
  let r := CombinedOutput (absify gokrazy cmd) args in
  body w' = (body w +:+ r.1)%string
  ∧ Header_Get w' "Content-Type" = "text/plain; charset=utf-8"%string
  ∧ match r.2 with
    | Some e => status w' = Some 500%Z ∧ Header_Get w' "Exec-Err" = e
    | None =>
        status w' = Some 200%Z
        ∧ Header_Get w' "Exec-Err" = Header_Get w "Exec-Err"
    end.
Proof.
  intros Hfresh. cbv zeta. unfold serveCmd.
  destruct (CombinedOutput (absify gokrazy cmd) args) as [out [e|]]; simpl.
  - unfold Response_Write, WriteHeader; simpl. rewrite Hfresh; simpl.
    split; [reflexivity|]. split; [|split; [reflexivity|]].
    + change (Header_Get
                (Header_Set
                   (Header_Set w "Content-Type" "text/plain; charset=utf-8")
                   "Exec-Err" e) "Content-Type"
              = "text/plain; charset=utf-8"%string).
      by rewrite !Header_Get_Set.
    + change (Header_Get
                (Header_Set
                   (Header_Set w "Content-Type" "text/plain; charset=utf-8")
                   "Exec-Err" e) "Exec-Err" = e).
      by rewrite Header_Get_Set.
  - unfold Response_Write, WriteHeader; simpl. rewrite Hfresh; simpl.
    split; [reflexivity|]. split; [|split; [reflexivity|]].
    + change (Header_Get
                (Header_Set w "Content-Type" "text/plain; charset=utf-8")
                "Content-Type" = "text/plain; charset=utf-8"%string).
      by rewrite Header_Get_Set.
    + change (Header_Get
                (Header_Set w "Content-Type" "text/plain; charset=utf-8")
                "Exec-Err" = Header_Get w "Exec-Err").
      by rewrite Header_Get_Set.
Qed.

Lemma serveCmd_response_witness :
  status newResponse = None
  ∧ body (upHandler true (λ _ _, ("no such file"%string, Some "exit status 1"%string))
            newResponse) = "no such file"%string
  ∧ status (upHandler true (λ _ _, ("no such file"%string, Some "exit status 1"%string))
              newResponse) = Some 500%Z
  ∧ Header_Get (upHandler true
                  (λ _ _, ("no such file"%string, Some "exit status 1"%string))
                  newResponse) "Exec-Err" = "exit status 1"%string.
Proof.
  split; [reflexivity|].
  pose proof (serveCmd_response true
                (λ _ _, ("no such file"%string, Some "exit status 1"%string))
                newResponse "tailscale"
                ["up"%string; "--login-server=http://control.tailscale"%string]
                eq_refl) as (Hbody & _ & Hstatus & Herr).
  split; [exact Hbody|]. split; [exact Hstatus | exact Herr].
Defined.

Lemma list_byte_of_string_app (a b : string) :
  String.list_byte_of_string (a +:+ b)
  = String.list_byte_of_string a ++ String.list_byte_of_string b.
Proof.
  induction a as [|c a IH]; [reflexivity|].
  change (String.list_byte_of_string (String c (a +:+ b))
          = String.list_byte_of_string (String c a) ++ String.list_byte_of_string b).
  unfold String.list_byte_of_string in *. simpl. by rewrite IH.
Qed.

(** X15.  [/logs] gives the log back: after any writes that together fit in
    [2^20] bytes, the handler answers, on a response nothing was written to
    yet, with status 200, plain text, and exactly the bytes written, in
    order. *)
Theorem logsHandler_returns_log (ps : list (list Byte.byte)) (w : ResponseWriter) :
  status w = None →
  (Z.of_nat (length (concat ps)) ≤ maxSize)%Z →
  let w' := logsHandler (write_all {| buf := [] |} ps) w in
  status w' = Some 200%Z
  ∧ Header_Get w' "Content-Type" = "text/plain; charset=utf-8"%string
  ∧ String.list_byte_of_string (body w')
    = String.list_byte_of_string (body w) ++ concat ps.
Proof.
  intros Hfresh Hfit. cbv zeta. unfold logsHandler.
  rewrite (logBuffer_keeps_all_within_cap ps Hfit).
  unfold Response_Write, WriteHeader; simpl. rewrite Hfresh; simpl.
  split; [reflexivity|]. split.
  - change (Header_Get
              (Header_Set w "Content-Type" "text/plain; charset=utf-8")
              "Content-Type" = "text/plain; charset=utf-8"%string).
    by rewrite Header_Get_Set.
  - by rewrite list_byte_of_string_app, String.list_byte_of_string_of_list_byte.
Qed.

Lemma logsHandler_returns_log_witness :
  status newResponse = None
  ∧ (Z.of_nat (length (concat [[Byte.x68; Byte.x69]; [Byte.x0a]])) ≤ maxSize)%Z
  ∧ String.list_byte_of_string
      (body (logsHandler
               (write_all {| buf := [] |} [[Byte.x68; Byte.x69]; [Byte.x0a]])
               newResponse))
    = String.list_byte_of_string (body newResponse)
      ++ concat [[Byte.x68; Byte.x69]; [Byte.x0a]].
Proof.
  assert (Z.of_nat (length (concat [[Byte.x68; Byte.x69]; [Byte.x0a]]))
          ≤ maxSize)%Z as Hfit by (rewrite maxSize_eq; simpl; lia).
  split; [reflexivity|]. split; [exact Hfit|].
  exact (proj2 (proj2 (logsHandler_returns_log
                         [[Byte.x68; Byte.x69]; [Byte.x0a]] newResponse
                         eq_refl Hfit))).
Defined.

(** ** The name server of the kernel command line *)

Lemma prefix_drop (p s : string) :
  String.prefix p s = true → s = (p +:+ string_drop (String.length p) s)%string.
Proof.
  revert s. induction p as [|a p IH]; intros s; destruct s as [|b s]; simpl;
    try done.
  destruct (Ascii.ascii_dec a b) as [->|]; [|discriminate].
  intros H. change (String b s = String b (p +:+ string_drop (String.length p) s)).
  f_equal. by apply IH.
Qed.

Lemma prefix_append (p t : string) : String.prefix p (p +:+ t) = true.
Proof.
  induction p as [|a p IH]; simpl; [by destruct t|].
  by destruct (Ascii.ascii_dec a a).
Qed.

Lemma drop_append (p t : string) : string_drop (String.length p) (p +:+ t) = t.
Proof. induction p as [|a p IH]; simpl; [by destruct t | exact IH]. Qed.

(** X16.  [strings.CutPrefix] as line 92 uses it: cutting [prefix] from
    [prefix + t] gives [t] back; whatever it reports as found, putting the
    prefix back gives the input; and when it reports not found it returns
    the input, and the input does not start with the prefix. *)
Theorem strings_CutPrefix_round_trip (s prefix t : string) :
  strings_CutPrefix (prefix +:+ t) prefix = (t, true)
  ∧ match strings_CutPrefix s prefix with
    | (after, true) => s = (prefix +:+ after)%string
    | (after, false) => after = s ∧ strings_HasPrefix s prefix = false
    end.
Proof.
  unfold strings_CutPrefix, strings_HasPrefix. split.
  - by rewrite prefix_append, drop_append.
  - destruct (String.prefix prefix s) eqn:Hp; [by apply prefix_drop | done].
Qed.

(** X17.  The name server written to [/tmp/resolv.conf] is the one of the
    first field that starts with [tta.nameserver=]: fields before it do not
    start with it, fields after it are ignored, and the file is "nameserver",
    the rest of that field (possibly empty) and a newline.  Nothing is
    written exactly when no field starts with it. *)
Theorem explicit_nameserver_first_match (fields : list string) :
  match explicit_nameserver fields with
  | Some content =>
      ∃ before ns after,
        fields = before ++ ("tta.nameserver=" +:+ ns)%string :: after
        ∧ Forall (λ f, strings_HasPrefix f "tta.nameserver=" = false) before
        ∧ content = ("nameserver " +:+ ns +:+ newline)%string
  | None => Forall (λ f, strings_HasPrefix f "tta.nameserver=" = false) fields
  end.
Proof.
  induction fields as [|f fields IH]; [constructor|].
  cbn [explicit_nameserver]. unfold strings_CutPrefix.
  destruct (strings_HasPrefix f "tta.nameserver=") eqn:Hp.
  - exists [], (string_drop (String.length "tta.nameserver=") f), fields.
    split; [|split; [constructor | reflexivity]].
    simpl app. f_equal. by apply prefix_drop.
  - destruct (explicit_nameserver fields) as [content|].
    + destruct IH as (before & ns & after & -> & Hbefore & ->).
      exists (f :: before), ns, after.
      split; [reflexivity|]. split; [by constructor | reflexivity].
    + by constructor.
Qed.
